(** * pig.py: the Pygments highlighting daemon of diecast

    A shallow embedding of [scripts/pig.py]: the two custom lexers
    ([TOMLLexer], [GDBLexer]), the worker's receive-render-reply loop
    ([ServerWorker.run]) and the start-up sequence ([ServerTask.run]).

    Python values are modelled as the interpreter has them: [bytes] objects
    are lists of bytes, [str] objects are lists of Unicode code points, an
    exception is a class together with its [str()] text, and a call that may
    raise returns a [result]. *)

From Stdlib Require Import List NArith ZArith Bool Arith Lia.
From Stdlib.Strings Require Import Ascii String Byte.
Import ListNotations.

Local Open Scope N_scope.
Local Open Scope list_scope.

(** ** Python values *)

(** A [str]: a sequence of code points. *)
Definition text : Type := list N.

(** A [bytes] object. *)
Definition bytes : Type := list byte.

(** A [str] literal of the source (ASCII). *)
Definition str (s : string) : text := map N_of_ascii (list_ascii_of_string s).

(** A [bytes] literal. *)
Definition bytes_lit (s : string) : bytes := list_byte_of_string s.

Definition text_eq_dec : forall x y : text, {x = y} + {x <> y} :=
  list_eq_dec N.eq_dec.

(** [x == y] on two [str] objects. *)
Definition text_eqb (x y : text) : bool :=
  if text_eq_dec x y then true else false.

(** [s.startswith(p)]. *)
Fixpoint startswith {A} (eqb : A -> A -> bool) (p s : list A) : bool :=
  match p, s with
  | [], _ => true
  | a :: p', c :: s' => eqb a c && startswith eqb p' s'
  | _ :: _, [] => false
  end.

(** [p in s] for two sequences: [p] occurs as a contiguous run of [s]. *)
Fixpoint contains {A} (eqb : A -> A -> bool) (p s : list A) : bool :=
  startswith eqb p s ||
  match s with
  | [] => false
  | _ :: s' => contains eqb p s'
  end.

Definition byte_eqb (x y : byte) : bool := Byte.to_N x =? Byte.to_N y.

(** ** Exceptions *)

(** The exception classes that the code names or that its calls raise.
    [ClassNotFound] derives from [ValueError] in Pygments, and so do the two
    Unicode errors in the interpreter; [OtherError] stands for every class
    outside that family. *)
Inductive exn_class : Type :=
| ValueError
| ClassNotFound
| UnicodeDecodeError
| UnicodeEncodeError
| TypeError
| OtherError (name : string).

Record exn : Type := Exn { exn_cls : exn_class; exn_str : text }.

(** [isinstance(e, ValueError)]. *)
Definition is_ValueError (c : exn_class) : bool :=
  match c with
  | ValueError | ClassNotFound | UnicodeDecodeError | UnicodeEncodeError => true
  | TypeError | OtherError _ => false
  end.

(** [isinstance(e, ClassNotFound)]. *)
Definition is_ClassNotFound (c : exn_class) : bool :=
  match c with
  | ClassNotFound => true
  | _ => false
  end.

(** The outcome of a call: a value, a raised exception, or no return at
    all (a call that never comes back). *)
Inductive result (A : Type) : Type :=
| Ok (a : A)
| Raise (e : exn)
| Hang.
Arguments Ok {A} a.
Arguments Raise {A} e.
Arguments Hang {A}.

Definition bind {A B} (r : result A) (k : A -> result B) : result B :=
  match r with
  | Ok a => k a
  | Raise e => Raise e
  | Hang => Hang
  end.

Notation "x <- c ;; k" := (bind c (fun x => k))
  (at level 61, c at next level, right associativity).

(** The call came back with a value. *)
Definition returned {A} (r : result A) : bool :=
  match r with
  | Ok _ => true
  | _ => false
  end.

(** [try: body  except cls as err: handler(err)]. *)
Definition try_except {A} (body : result A) (catches : exn_class -> bool)
    (handler : exn -> result A) : result A :=
  match body with
  | Ok a => Ok a
  | Raise e => if catches (exn_cls e) then handler e else Raise e
  | Hang => Hang
  end.

(** ** The UTF-8 codec

    [bytes.decode(encoding="UTF-8")] with the default strict error handling:
    shortest form only, no surrogates, nothing above U+10FFFF. *)

Definition is_cont (x : N) : bool := (0x80 <=? x) && (x <=? 0xBF).

Definition in_range (lo hi x : N) : bool := (lo <=? x) && (x <=? hi).

Definition decode_error : exn :=
  Exn UnicodeDecodeError (str "'utf-8' codec can't decode byte").

Definition encode_error : exn :=
  Exn UnicodeEncodeError (str "'utf-8' codec can't encode character").

Fixpoint utf8_decode (bs : bytes) : result text :=
  match bs with
  | [] => Ok []
  | b0 :: r0 =>
    let x0 := Byte.to_N b0 in
    if x0 <? 0x80 then
      t <- utf8_decode r0 ;; Ok (x0 :: t)
    else if in_range 0xC2 0xDF x0 then
      match r0 with
      | b1 :: r1 =>
        let x1 := Byte.to_N b1 in
        if is_cont x1 then
          t <- utf8_decode r1 ;;
          Ok (((x0 - 0xC0) * 64 + (x1 - 0x80)) :: t)
        else Raise decode_error
      | _ => Raise decode_error
      end
    else if in_range 0xE0 0xEF x0 then
      match r0 with
      | b1 :: b2 :: r2 =>
        let x1 := Byte.to_N b1 in
        let x2 := Byte.to_N b2 in
        let lo := if x0 =? 0xE0 then 0xA0 else 0x80 in
        let hi := if x0 =? 0xED then 0x9F else 0xBF in
        if in_range lo hi x1 && is_cont x2 then
          t <- utf8_decode r2 ;;
          Ok (((x0 - 0xE0) * 4096 + (x1 - 0x80) * 64 + (x2 - 0x80)) :: t)
        else Raise decode_error
      | _ => Raise decode_error
      end
    else if in_range 0xF0 0xF4 x0 then
      match r0 with
      | b1 :: b2 :: b3 :: r3 =>
        let x1 := Byte.to_N b1 in
        let x2 := Byte.to_N b2 in
        let x3 := Byte.to_N b3 in
        let lo := if x0 =? 0xF0 then 0x90 else 0x80 in
        let hi := if x0 =? 0xF4 then 0x8F else 0xBF in
        if in_range lo hi x1 && is_cont x2 && is_cont x3 then
          t <- utf8_decode r3 ;;
          Ok (((x0 - 0xF0) * 262144 + (x1 - 0x80) * 4096
               + (x2 - 0x80) * 64 + (x3 - 0x80)) :: t)
        else Raise decode_error
      | _ => Raise decode_error
      end
    else Raise decode_error
  end.

(** A code point that has a UTF-8 encoding: a Unicode scalar value. *)
Definition is_scalar (c : N) : bool :=
  (c <? 0xD800) || ((0xE000 <=? c) && (c <=? 0x10FFFF)).

Definition byte_of_N (n : N) : byte :=
  match Byte.of_N n with
  | Some x => x
  | None => x00
  end.

Definition utf8_encode_cp (c : N) : list byte :=
  if c <? 0x80 then [byte_of_N c]
  else if c <? 0x800 then
    [byte_of_N (0xC0 + c / 64); byte_of_N (0x80 + c mod 64)]
  else if c <? 0x10000 then
    [byte_of_N (0xE0 + c / 4096); byte_of_N (0x80 + (c / 64) mod 64);
     byte_of_N (0x80 + c mod 64)]
  else
    [byte_of_N (0xF0 + c / 262144); byte_of_N (0x80 + (c / 4096) mod 64);
     byte_of_N (0x80 + (c / 64) mod 64); byte_of_N (0x80 + c mod 64)].

(** [str.encode("utf-8")]. *)
Fixpoint utf8_encode (t : text) : result bytes :=
  match t with
  | [] => Ok []
  | c :: t' =>
    if is_scalar c then
      bs <- utf8_encode t' ;; Ok (utf8_encode_cp c ++ bs)
    else Raise encode_error
  end.

(** ** Token types

    A Pygments token type is the path from the root [Token], e.g.
    [Token.Literal.String]; [String] and [Number] are the library's aliases
    for [Literal.String] and [Literal.Number]. *)

Definition token_type : Type := list string.

Module Tok.
Definition Text : token_type := ["Text"%string].
Definition Whitespace : token_type := ["Text"; "Whitespace"]%string.
Definition Error : token_type := ["Error"%string].
Definition Comment : token_type := ["Comment"%string].
Definition Comment_Single : token_type := ["Comment"; "Single"]%string.
Definition Comment_Special : token_type := ["Comment"; "Special"]%string.
Definition Keyword_Constant : token_type := ["Keyword"; "Constant"]%string.
Definition Keyword_Type : token_type := ["Keyword"; "Type"]%string.
Definition Name : token_type := ["Name"%string].
Definition Name_Attribute : token_type := ["Name"; "Attribute"]%string.
Definition Name_Builtin : token_type := ["Name"; "Builtin"]%string.
Definition Name_Function : token_type := ["Name"; "Function"]%string.
Definition Name_Variable : token_type := ["Name"; "Variable"]%string.
Definition String : token_type := ["Literal"; "String"]%string.
Definition Number_Float : token_type := ["Literal"; "Number"; "Float"]%string.
Definition Number_Hex : token_type := ["Literal"; "Number"; "Hex"]%string.
Definition Number_Integer : token_type :=
  ["Literal"; "Number"; "Integer"]%string.
Definition Operator : token_type := ["Operator"%string].
Definition Punctuation : token_type := ["Punctuation"%string].
End Tok.

(** One item of a lexer's output stream: [(ttype, value)]. *)
Definition token : Type := token_type * text.

(** ** Regular expressions

    The fragment of Python's [re] syntax that the two lexers use, with the
    backtracking semantics of [pattern.match(text, pos)]: alternatives are
    tried left to right, [*] is greedy unless written [*?], and the first
    way to match wins. *)

(** The Unicode database decides [\s], [\d] and [\w] outside ASCII; it is
    not part of the program, so the matcher takes it as a parameter. *)
Record unicode_db : Type := UnicodeDb {
  uni_isspace : N -> bool;
  uni_isdigit : N -> bool;
  uni_isalnum : N -> bool
}.

(** The database of [re.ASCII]: nothing outside ASCII is classified. *)
Definition ascii_db : unicode_db :=
  UnicodeDb (fun _ => false) (fun _ => false) (fun _ => false).

Inductive cset_item : Type :=
| CChar (c : N)
| CRange (lo hi : N)
| CSpace
| CDigit
| CWord.

Inductive regex : Type :=
| REps
| RChar (c : N)
| RAny
| RSet (neg : bool) (items : list cset_item)
| REol
| RWordB
| RSeq (r1 r2 : regex)
| RAlt (r1 r2 : regex)
| RStar (greedy : bool) (r : regex)
| RGroup (i : nat) (r : regex).

(** The code point of a one-character literal. *)
Definition chr (s : string) : N :=
  match s with
  | String a _ => N_of_ascii a
  | EmptyString => 0
  end.

Definition RPlus (r : regex) : regex := RSeq r (RStar true r).
Definition ROpt (r : regex) : regex := RAlt r REps.

Fixpoint RRep (n : nat) (r : regex) : regex :=
  match n with
  | O => REps
  | S n' => RSeq r (RRep n' r)
  end.

Fixpoint RLit (t : text) : regex :=
  match t with
  | [] => REps
  | c :: t' => RSeq (RChar c) (RLit t')
  end.

Definition RStr (s : string) : regex := RLit (str s).

Fixpoint RCat (rs : list regex) : regex :=
  match rs with
  | [] => REps
  | [r] => r
  | r :: rs' => RSeq r (RCat rs')
  end.

Definition RSpace : regex := RSet false [CSpace].
Definition RDigit : regex := RSet false [CDigit].
Definition RWord : regex := RSet false [CWord].

Section Matcher.
Variable db : unicode_db.

Definition is_space (c : N) : bool :=
  if c <? 128 then in_range 9 13 c || in_range 28 32 c
  else uni_isspace db c.

Definition is_digit (c : N) : bool :=
  if c <? 128 then in_range 48 57 c else uni_isdigit db c.

Definition is_word (c : N) : bool :=
  if c <? 128 then
    in_range 48 57 c || in_range 65 90 c || in_range 97 122 c || (c =? 95)
  else uni_isalnum db c.

Definition item_matches (x : N) (it : cset_item) : bool :=
  match it with
  | CChar c => x =? c
  | CRange lo hi => in_range lo hi x
  | CSpace => is_space x
  | CDigit => is_digit x
  | CWord => is_word x
  end.

(** The matcher's position: the character before it, the text from it on,
    and the groups captured so far (latest first). *)
Record mstate : Type := MState {
  m_prev : option N;
  m_rest : text;
  m_groups : list (nat * text)
}.

Definition advance (x : N) (t : text) (s : mstate) : mstate :=
  MState (Some x) t (m_groups s).

(** What was consumed between two positions of one match. *)
Definition consumed (s0 s1 : mstate) : text :=
  firstn (List.length (m_rest s0) - List.length (m_rest s1)) (m_rest s0).

Definition one_char {A} (p : N -> bool) (s : mstate)
    (k : mstate -> option A) : option A :=
  match m_rest s with
  | x :: t => if p x then k (advance x t s) else None
  | [] => None
  end.

Definition word_before (s : mstate) : bool :=
  match m_prev s with Some c => is_word c | None => false end.

Definition word_after (s : mstate) : bool :=
  match m_rest s with c :: _ => is_word c | [] => false end.

Definition or_else {A} (x y : option A) : option A :=
  match x with Some a => Some a | None => y end.

(** [rmatch r s k]: match [r] at [s] and hand each candidate end position
    to [k], in backtracking order, until [k] accepts one.  A repetition
    goes round again only after an iteration that consumed something. *)
Fixpoint rmatch {A} (r : regex) (s : mstate) (k : mstate -> option A)
    {struct r} : option A :=
  match r with
  | REps => k s
  | RChar c => one_char (fun x => x =? c) s k
  | RAny => one_char (fun x => negb (x =? 10)) s k
  | RSet neg items =>
    one_char (fun x => xorb neg (existsb (item_matches x) items)) s k
  | REol =>
    match m_rest s with
    | [] => k s
    | x :: _ => if x =? 10 then k s else None
    end
  | RWordB => if xorb (word_before s) (word_after s) then k s else None
  | RSeq r1 r2 => rmatch r1 s (fun s1 => rmatch r2 s1 k)
  | RAlt r1 r2 => or_else (rmatch r1 s k) (rmatch r2 s k)
  | RStar greedy r1 =>
    (fix loop (n : nat) (s : mstate) {struct n} : option A :=
       match n with
       | O => k s
       | S n' =>
         let again :=
           rmatch r1 s (fun s1 =>
             if (List.length (m_rest s1) <? List.length (m_rest s))%nat
             then loop n' s1 else None) in
         if greedy then or_else again (k s) else or_else (k s) again
       end) (List.length (m_rest s)) s
  | RGroup i r1 =>
    rmatch r1 s (fun s1 =>
      k (MState (m_prev s1) (m_rest s1) ((i, consumed s s1) :: m_groups s1)))
  end.

(** [m.group(i)]; [None] when the group took no part in the match. *)
Fixpoint group (i : nat) (gs : list (nat * text)) : option text :=
  match gs with
  | [] => None
  | (j, v) :: gs' => if Nat.eqb i j then Some v else group i gs'
  end.

(** [pattern.match(text, pos)]: the end position of the first match. *)
Definition re_match (r : regex) (prev : option N) (rest : text)
    : option mstate :=
  rmatch r (MState prev rest []) Some.

End Matcher.


(** ** The [RegexLexer] engine

    A lexer definition is the [tokens] dictionary of the class: for each
    state, an ordered list of [(pattern, action, new_state)] rules. *)

Inductive action : Type :=
| Emit (t : token_type)
| ByGroups (ts : list token_type).

Inductive transition : Type :=
| Stay
| Push (st : string)
| PushSame
| Pop.

Record rule : Type := Rule {
  r_pattern : regex;
  r_action : action;
  r_next : transition
}.

Definition lexer_def : Type := list (string * list rule).

Fixpoint state_rules (def : lexer_def) (st : string) : list rule :=
  match def with
  | [] => []
  | (name, rs) :: def' =>
    if String.eqb name st then rs else state_rules def' st
  end.

(** The state stack, innermost state first. *)
Definition top (stack : list string) : string :=
  match stack with
  | st :: _ => st
  | [] => "root"%string
  end.

(** ['#pop'] keeps the last state on the stack. *)
Definition next_stack (tr : transition) (stack : list string) : list string :=
  match tr with
  | Stay => stack
  | Push st => st :: stack
  | PushSame => top stack :: stack
  | Pop =>
    match stack with
    | _ :: (_ :: _) as below => below
    | _ => stack
    end
  end.

Section RegexLexer.
Variable db : unicode_db.

(** The first rule of the state, in order, whose pattern matches here. *)
Fixpoint first_match (rs : list rule) (prev : option N) (rest : text)
    : option (rule * mstate) :=
  match rs with
  | [] => None
  | rl :: rs' =>
    match re_match db (r_pattern rl) prev rest with
    | Some s1 => Some (rl, s1)
    | None => first_match rs' prev rest
    end
  end.

(** [bygroups]: one token per group that matched something. *)
Fixpoint bygroups (i : nat) (ts : list token_type) (gs : list (nat * text))
    : list token :=
  match ts with
  | [] => []
  | t :: ts' =>
    match group i gs with
    | Some ((_ :: _) as data) => (t, data) :: bygroups (S i) ts' gs
    | _ => bygroups (S i) ts' gs
    end
  end.

Definition run_action (a : action) (rest : text) (s1 : mstate)
    : list token :=
  match a with
  | Emit t => [(t, firstn (List.length rest - List.length (m_rest s1)) rest)]
  | ByGroups ts => bygroups 1 ts (m_groups s1)
  end.

(** [get_tokens_unprocessed]: the loop of the engine.  A rule that matches
    advances to the end of its match; where no rule matches, a newline
    resets the stack and is yielded as [Whitespace], and any other
    character is an [Error] token.  [None] when the fuel does not reach the
    end of the text. *)
Fixpoint lex_loop (fuel : nat) (def : lexer_def) (stack : list string)
    (prev : option N) (rest : text) : option (list token) :=
  match fuel with
  | O => None
  | S fuel' =>
    match first_match (state_rules def (top stack)) prev rest with
    | Some (rl, s1) =>
      option_map (app (run_action (r_action rl) rest s1))
        (lex_loop fuel' def (next_stack (r_next rl) stack)
           (m_prev s1) (m_rest s1))
    | None =>
      match rest with
      | [] => Some []
      | x :: t =>
        if x =? 10 then
          option_map (cons (Tok.Whitespace, [x]))
            (lex_loop fuel' def ["root"%string] (Some x) t)
        else
          option_map (cons (Tok.Error, [x]))
            (lex_loop fuel' def stack (Some x) t)
      end
    end
  end.

Definition get_tokens_unprocessed (def : lexer_def) (t : text)
    : option (list token) :=
  lex_loop (S (List.length t)) def ["root"%string] None t.

End RegexLexer.

(** A pattern that cannot match the empty string: every match of it moves
    the position forward. *)
Fixpoint consuming (r : regex) : bool :=
  match r with
  | RChar _ | RAny | RSet _ _ => true
  | REps | REol | RWordB | RStar _ _ => false
  | RSeq r1 r2 => consuming r1 || consuming r2
  | RAlt r1 r2 => consuming r1 && consuming r2
  | RGroup _ r1 => consuming r1
  end.

(** Every starred body of the pattern is consuming: no iteration of a
    repetition can match the empty string, which is the one case where the
    loop of [rmatch] and the library's could part. *)
Fixpoint guarded (r : regex) : bool :=
  match r with
  | REps | RChar _ | RAny | RSet _ _ | REol | RWordB => true
  | RSeq r1 r2 | RAlt r1 r2 => guarded r1 && guarded r2
  | RStar _ r1 => consuming r1 && guarded r1
  | RGroup _ r1 => guarded r1
  end.

(** The least number of characters a match of the pattern takes, as far as
    [consuming] tells. *)
Definition step_of (r : regex) : nat :=
  if consuming r then 1%nat else 0%nat.

(** A lexer definition all of whose patterns are consuming. *)
Definition all_consuming (def : lexer_def) : bool :=
  forallb (fun st => forallb (fun rl => consuming (r_pattern rl)) (snd st))
          def.

(** ** The two lexers of pig.py *)

Definition dquote : N := 34.
Definition backslash : N := 92.

Definition char_range (lo hi : string) : cset_item :=
  CRange (chr lo) (chr hi).

Definition chars (s : string) : list cset_item := map CChar (str s).

Module TOMLLexer.

Definition aliases : list text := [str "toml"].

(** Line 33: a double-quoted string with backslash escapes. *)
Definition string_re : regex :=
  RCat [RChar dquote;
        RStar true
          (RGroup 1
             (RAlt (RLit [backslash; backslash])
                (RAlt (RLit [backslash; dquote])
                   (RSet true [CChar dquote]))));
        RChar dquote].

(** Line 35: a letter or underscore, then letters, digits, [_] and [-]. *)
Definition name_re : regex :=
  RSeq (RSet false [char_range "a" "z"; char_range "A" "Z"; CChar (chr "_")])
       (RStar true
          (RSet false [char_range "a" "z"; char_range "A" "Z";
                       char_range "0" "9"; CChar (chr "_");
                       CChar (chr "-")])).

(** Line 38: an ISO date and time ending in [Z]. *)
Definition datetime_re : regex :=
  RCat [RRep 4 RDigit; RStr "-"; RRep 2 RDigit; RStr "-"; RRep 2 RDigit;
        RStr "T"; RRep 2 RDigit; RStr ":"; RRep 2 RDigit; RStr ":";
        RRep 2 RDigit; RStr "Z"].

(** The exponent of lines 41 and 42: [e] or [E], a sign, digits. *)
Definition exponent : regex :=
  RCat [RSet false (chars "eE"); ROpt (RSet false (chars "+-"));
        RPlus (RSet false [char_range "0" "9"])].

(** Line 41: digits around a point, an optional exponent and [j]. *)
Definition float_re : regex :=
  RCat [RGroup 1
          (RAlt (RCat [RPlus RDigit; RStr "."; RStar true RDigit])
                (RCat [RStar true RDigit; RStr "."; RPlus RDigit]));
        ROpt (RGroup 2 exponent);
        ROpt (RStr "j")].

(** Line 42: digits, an exponent and an optional [j]. *)
Definition float_exp_re : regex :=
  RCat [RPlus RDigit; exponent; ROpt (RStr "j")].

Definition root : list rule :=
  [ Rule (RPlus RSpace) (Emit Tok.Text) Stay;
    Rule (RCat [RStr "#"; RStar false RAny; REol])
         (Emit Tok.Comment_Single) Stay;
    Rule string_re (Emit Tok.String) Stay;
    Rule (RSeq (RGroup 1 (RAlt (RStr "true") (RStr "false"))) REol)
         (Emit Tok.Keyword_Constant) Stay;
    Rule name_re (Emit Tok.Name) Stay;
    Rule datetime_re (Emit Tok.Number_Integer) Stay;
    Rule float_re (Emit Tok.Number_Float) Stay;
    Rule float_exp_re (Emit Tok.Number_Float) Stay;
    Rule (RSeq (ROpt (RStr "-")) (RPlus RDigit))
         (Emit Tok.Number_Integer) Stay;
    Rule (RSet false (chars "]{}:(),;[")) (Emit Tok.Punctuation) Stay;
    Rule (RStr ".") (Emit Tok.Punctuation) Stay;
    Rule (RStr "=") (Emit Tok.Operator) Stay ].

Definition tokens : lexer_def := [("root"%string, root)].

End TOMLLexer.

Module GDBLexer.

Definition aliases : list text := [str "gdb"].

(** Line 61: a double-quoted string without escapes. *)
Definition string : regex :=
  RCat [RChar dquote; RStar true (RSet true [CChar dquote]); RChar dquote].

(** Line 62: one character of an identifier. *)
Definition char : regex :=
  RSet false [char_range "a" "z"; char_range "A" "Z"; CChar (chr "$");
              CChar (chr "."); CChar (chr "_"); char_range "0" "9";
              CChar (chr "@")].

(** Line 63: an identifier, or a point followed by characters. *)
Definition identifier : regex :=
  RAlt (RSeq (RSet false [char_range "a" "z"; char_range "A" "Z";
                          CChar (chr "$"); CChar (chr "_")])
             (RStar true char))
       (RSeq (RStr ".") (RPlus char)).

(** Line 64: a hexadecimal or decimal number. *)
Definition number : regex :=
  RAlt (RCat [RStr "0"; RSet false (chars "xX");
              RPlus (RSet false [char_range "a" "z"; char_range "A" "Z";
                                 char_range "0" "9"])])
       (RPlus RDigit).

(** Line 69: a prompt, a command and its format suffix, in six groups. *)
Definition prompt_re : regex :=
  RCat [RGroup 1
          (RAlt (RCat [ROpt (RStr "("); RStr "gdb"; RSet false (chars ")$")])
                (RStr ">"));
        RGroup 2 (RStr " ");
        RGroup 3 identifier;
        RGroup 4 (ROpt (RStr "/"));
        RGroup 5 (RStar true RDigit);
        RGroup 6 (RStar true RWord)].

Definition root : list rule :=
  [ Rule (RPlus RSpace) (Emit Tok.Text) Stay;
    Rule prompt_re
         (ByGroups [Tok.Keyword_Type; Tok.Text; Tok.Name_Builtin; Tok.Text;
                    Tok.Number_Integer; Tok.Keyword_Constant]) Stay;
    Rule number (Emit Tok.Number_Hex) Stay;
    Rule string (Emit Tok.String) Stay;
    Rule (RStr "=") (Emit Tok.Operator) Stay;
    (* line 74: a value-history variable opening a struct *)
    Rule (RSeq (RGroup 1 (RSeq (RStr "$") (RPlus RDigit)))
               (RGroup 2 (RStr " = {")))
         (ByGroups [Tok.Name_Variable; Tok.Text]) (Push "struct");
    (* line 75 *)
    Rule (RSeq (RStr "$") (RPlus identifier)) (Emit Tok.Name_Variable) Stay;
    (* line 76 *)
    Rule (RSeq (RStr "$") (RPlus number)) (Emit Tok.Name_Variable) Stay;
    (* line 77 *)
    Rule (RSeq (RStr "#") (RStar true RAny)) (Emit Tok.Comment) Stay;
    Rule (RStr "<snip>") (Emit Tok.Comment_Special) Stay;
    (* line 79: a symbol with an optional offset *)
    Rule (RCat [RStr "<"; RPlus identifier; ROpt (RStr "+");
                RStar true RDigit; RStr ">"])
         (Emit Tok.Name_Function) Stay;
    (* line 80 *)
    Rule (RSeq (RStr "->") (RPlus identifier)) (Emit Tok.Name_Attribute) Stay;
    (* line 81: a cast to a struct pointer *)
    Rule (RCat [RGroup 1 (RStr "(");
                RGroup 2 (RCat [RStar true RSpace; RStr "struct";
                                RStar true RSpace; RPlus identifier;
                                RStar true RSpace; RStr "*"]);
                RGroup 3 (RStr ")")])
         (ByGroups [Tok.Text; Tok.Keyword_Type; Tok.Text]) Stay;
    (* line 82: a cast to a scalar type *)
    Rule (RCat [RStr "(";
                RGroup 1 (RAlt (RStr "int")
                            (RAlt (RStr "long")
                               (RAlt (RStr "short") (RStr "char"))));
                RStar true RSpace; ROpt (RStr "*")])
         (Emit Tok.Keyword_Type) Stay;
    (* line 83 *)
    Rule (RCat [RWordB; RGroup 1 (RStr "if"); RWordB])
         (Emit Tok.Name_Builtin) Stay;
    Rule RAny (Emit Tok.Text) Stay ].

Definition struct : list rule :=
  [ (* line 87: a field opening a nested struct *)
    Rule (RCat [RGroup 1 (RStar true RSpace);
                RGroup 2 (RStar true (RSet true [CSpace]));
                RGroup 3 (RStr " = {")])
         (ByGroups [Tok.Text; Tok.Name_Variable; Tok.Text]) PushSame;
    (* line 88: a field *)
    Rule (RCat [RGroup 1 (RStar true RSpace);
                RGroup 2 (RStar true (RSet true [CSpace]));
                RGroup 3 (RStr " = ")])
         (ByGroups [Tok.Text; Tok.Name_Variable; Tok.Text]) Stay;
    (* line 89: the end of a struct *)
    Rule (RCat [RStar true RSpace; RStr "}"; ROpt (RStr ",")])
         (Emit Tok.Text) Pop;
    Rule number (Emit Tok.Number_Hex) Stay;
    Rule string (Emit Tok.String) Stay;
    Rule RAny (Emit Tok.Text) Stay ].

Definition tokens : lexer_def :=
  [("root"%string, root); ("struct"%string, struct)].

End GDBLexer.

(** ** Preparing the input

    [Lexer.get_tokens] prepares the text before it is tokenized.  With the
    options both lexers are built with ([stripnl] and [ensurenl] on,
    [stripall] off, [tabsize] 0) it drops a byte-order mark, turns every
    line end into a newline, strips newlines at both ends and ends the text
    with one. *)

Definition starts_with_nl (t : text) : bool :=
  match t with
  | c :: _ => c =? 10
  | [] => false
  end.

Fixpoint normalize_newlines (t : text) : text :=
  match t with
  | [] => []
  | c :: t' =>
    if c =? 13 then
      if starts_with_nl t' then normalize_newlines t'
      else 10 :: normalize_newlines t'
    else c :: normalize_newlines t'
  end.

Fixpoint lstrip_nl (t : text) : text :=
  match t with
  | [] => []
  | c :: t' => if c =? 10 then lstrip_nl t' else t
  end.

Definition rstrip_nl (t : text) : text := rev (lstrip_nl (rev t)).

Definition strip_nl (t : text) : text := rstrip_nl (lstrip_nl t).

Definition endswith_nl (t : text) : bool := starts_with_nl (rev t).

Definition strip_bom (t : text) : text :=
  match t with
  | [] => []
  | c :: t' => if c =? 0xFEFF then t' else t
  end.

Definition preprocess (t : text) : text :=
  let t1 := strip_nl (normalize_newlines (strip_bom t)) in
  if endswith_nl t1 then t1 else t1 ++ [10].

(** ** The HTML formatter

    [HtmlFormatter(encoding='utf-8', nowrap=True)]: the span-per-token
    markup of [_format_lines], written out without any wrapper and encoded.
    The style table that gives each token type its CSS class belongs to the
    library and is a parameter. *)

Module HtmlFormatter.

(** [_escape_html_table]. *)
Definition escape_char (c : N) : text :=
  if c =? 38 then str "&amp;"
  else if c =? 60 then str "&lt;"
  else if c =? 62 then str "&gt;"
  else if c =? 34 then str "&quot;"
  else if c =? 39 then str "&#39;"
  else [c].

Definition escape (t : text) : text := flat_map escape_char t.

(** [s.split('\n')]: the pieces between newlines, at least one. *)
Fixpoint split_nl (t : text) : list text :=
  match t with
  | [] => [[]]
  | c :: t' =>
    match split_nl t' with
    | p :: ps => if c =? 10 then [] :: p :: ps else (c :: p) :: ps
    | [] => [[c]]
    end
  end.

Section Format.
Variable css : token_type -> text.

Definition span_open (ttype : token_type) : text :=
  match css ttype with
  | [] => []
  | cls => str "<span class=" ++ [dquote] ++ cls ++ [dquote] ++ str ">"
  end.

(** [span and '</span>']. *)
Definition span_close (span : text) : text :=
  match span with
  | [] => []
  | _ => str "</span>"
  end.

(** The formatter's running state: the lines already written, the span
    that is open on the current line, and the pieces of that line. *)
Record fstate : Type := FState {
  f_out : text;
  f_lspan : text;
  f_line : list text
}.

(** One piece of a token's value that is followed by a newline. *)
Definition full_line (cspan part : text) (st : fstate) : fstate :=
  match f_line st with
  | _ :: _ =>
    let line :=
      if negb (text_eqb (f_lspan st) cspan)
         && negb (text_eqb part [])
      then f_line st ++ [span_close (f_lspan st); cspan; part;
                         span_close cspan; [10]]
      else f_line st ++ [part; span_close (f_lspan st); [10]] in
    FState (f_out st ++ List.concat line) (f_lspan st) []
  | [] =>
    match part with
    | _ :: _ =>
      FState (f_out st ++ cspan ++ part ++ span_close cspan ++ [10])
             (f_lspan st) []
    | [] => FState (f_out st ++ [10]) (f_lspan st) []
    end
  end.

(** The last piece of a token's value, which stays on the open line. *)
Definition last_piece (cspan part : text) (st : fstate) : fstate :=
  match f_line st, part with
  | _ :: _, _ :: _ =>
    if negb (text_eqb (f_lspan st) cspan)
    then FState (f_out st) cspan
                (f_line st ++ [span_close (f_lspan st); cspan; part])
    else FState (f_out st) (f_lspan st) (f_line st ++ [part])
  | [], _ :: _ => FState (f_out st) cspan [cspan; part]
  | _, [] => st
  end.

Fixpoint pieces (cspan : text) (parts : list text) (st : fstate)
    : fstate :=
  match parts with
  | [] => st
  | [part] => last_piece cspan part st
  | part :: parts' => pieces cspan parts' (full_line cspan part st)
  end.

Definition format_token (st : fstate) (tk : token) : fstate :=
  pieces (span_open (fst tk)) (split_nl (escape (snd tk))) st.

Definition finish (st : fstate) : text :=
  match f_line st with
  | _ :: _ =>
    f_out st ++ List.concat (f_line st ++ [span_close (f_lspan st); [10]])
  | [] => f_out st
  end.

(** [_format_lines] joined: the markup as a [str]. *)
Definition format_unencoded (toks : list token) : text :=
  finish (fold_left format_token toks (FState [] [] [])).

(** [formatter.format] into a byte buffer. *)
Definition format (toks : list token) : result bytes :=
  utf8_encode (format_unencoded toks).

End Format.

(** The classes of the token types that pig.py's own lexers emit, from the
    library's table of standard types; [Text] has none. *)
Definition standard_css (ttype : token_type) : text :=
  match ttype with
  | ["Text"; "Whitespace"] => str "w"
  | ["Error"] => str "err"
  | ["Comment"] => str "c"
  | ["Comment"; "Single"] => str "c1"
  | ["Comment"; "Special"] => str "cs"
  | ["Keyword"; "Constant"] => str "kc"
  | ["Keyword"; "Type"] => str "kt"
  | ["Name"] => str "n"
  | ["Name"; "Attribute"] => str "na"
  | ["Name"; "Builtin"] => str "nb"
  | ["Name"; "Function"] => str "nf"
  | ["Name"; "Variable"] => str "nv"
  | ["Literal"; "String"] => str "s"
  | ["Literal"; "Number"; "Float"] => str "mf"
  | ["Literal"; "Number"; "Hex"] => str "mh"
  | ["Literal"; "Number"; "Integer"] => str "mi"
  | ["Operator"] => str "o"
  | ["Punctuation"] => str "p"
  | _ => []
  end%string.

End HtmlFormatter.

(** ** Lexer instances *)

(** A lexer class of the Pygments registry: the plain-text lexer, whose
    alias is [text], or any other class, named. *)
Inductive lexer_class : Type :=
| TextLexer
| LibLexer (cls : string).

(** A lexer instance as [ServerWorker.run] builds it: one of the two classes
    of pig.py, or an instance of a registry class. *)
Inductive lexer : Type :=
| NewGDBLexer
| NewTOMLLexer
| RegistryLexer (c : lexer_class).

(** What [socket.send] is given. *)
Inductive payload : Type :=
| PBytes (b : bytes)
| PText (t : text).

(** The Python type of a payload. *)
Inductive pytype : Type := Ty_bytes | Ty_str.

Definition type_of (p : payload) : pytype :=
  match p with
  | PBytes _ => Ty_bytes
  | PText _ => Ty_str
  end.

(** The engine-error marker of line 151. *)
Definition error_marker : text := str "Pygments Error: ".

(** [ClassNotFound('no lexer for alias %r found' % alias)]; the [%r] quoting
    is written for aliases without quotes or escapes, such as [text]. *)
Definition class_not_found (alias : text) : exn :=
  Exn ClassNotFound
      (str "no lexer for alias '" ++ alias ++ str "' found").

(** [lang, code = ...] on a list that does not hold two items. *)
Definition unpack_error : exn :=
  Exn ValueError (str "wrong number of values to unpack").

(** ** ServerWorker *)

Section ServerWorker.

(** The collaborators: the Unicode database behind [re], the registry that
    [get_lexer_by_name] searches, the tokenizers of the registry's lexers,
    the worker's formatter ([self.formatter.format], bytes out), and the
    socket's [send]. *)
Variable db : unicode_db.
Variable find_lexer_class : text -> option lexer_class.
Variable registry_tokens : lexer_class -> text -> result (list token).
Variable formatter : list token -> result bytes.
Variable send : payload -> result unit.

Definition get_lexer_by_name (alias : text) : result lexer :=
  match find_lexer_class alias with
  | Some c => Ok (RegistryLexer c)
  | None => Raise (class_not_found alias)
  end.

(** Lines 140-145: the choice of the lexer. *)
Definition select_lexer (lang : text) : result lexer :=
  if text_eqb lang (str "gdb") then Ok NewGDBLexer
  else if text_eqb lang (str "toml") then Ok NewTOMLLexer
  else get_lexer_by_name lang.

(** Lines 139-147: the inner [try], with its fallback. *)
Definition resolve (lang : text) : result lexer :=
  try_except (select_lexer lang) is_ClassNotFound
    (fun _ => get_lexer_by_name (str "text")).

(** [RegexLexer.get_tokens] for a class of pig.py. *)
Definition regex_tokens (def : lexer_def) (code : text)
    : result (list token) :=
  match get_tokens_unprocessed db def (preprocess code) with
  | Some toks => Ok toks
  | None => Hang
  end.

Definition get_tokens (lex : lexer) (code : text) : result (list token) :=
  match lex with
  | NewGDBLexer => regex_tokens GDBLexer.tokens code
  | NewTOMLLexer => regex_tokens TOMLLexer.tokens code
  | RegistryLexer c => registry_tokens c code
  end.

(** [highlight(code, lex, self.formatter)]. *)
Definition highlight (code : text) (lex : lexer) : result bytes :=
  toks <- get_tokens lex code ;; formatter toks.

(** Line 151. *)
Definition error_reply (err : exn) : payload :=
  PText (error_marker ++ exn_str err).

(** Lines 137-151: the value of [rv] when the outer [try] is left. *)
Definition render (lang code : text) : result payload :=
  try_except
    (lex <- resolve lang ;;
     out <- highlight code lex ;;
     Ok (PBytes out))
    is_ValueError
    (fun err => Ok (error_reply err)).

(** Lines 132-153: one turn of the loop on a received message; the value
    is the reply that was sent. *)
Definition serve (frames : list bytes) : result payload :=
  match frames with
  | [f_lang; f_code] =>
    lang <- utf8_decode f_lang ;;
    code <- utf8_decode f_code ;;
    rv <- render lang code ;;
    _ <- send rv ;;
    Ok rv
  | _ => Raise unpack_error
  end.

(** How a worker's run over a sequence of messages ends. *)
Inductive worker_end : Type :=
| Receiving
| Died (e : exn)
| Stalled.

(** Lines 131-153: the loop, over the messages that the socket delivers
    to this worker, in order; the replies sent, and where the thread is
    afterwards. *)
Fixpoint run (msgs : list (list bytes)) : list payload * worker_end :=
  match msgs with
  | [] => ([], Receiving)
  | m :: msgs' =>
    match serve m with
    | Ok rv => let (out, e) := run msgs' in (rv :: out, e)
    | Raise e => ([], Died e)
    | Hang => ([], Stalled)
    end
  end.

End ServerWorker.

(** ** What a worker keeps between requests

    [self.formatter] is built once, at line 125, and handed to [highlight]
    at every turn of the loop, and the local variables of [run] outlive a
    turn as well.  The formatter keeps a dictionary of the span openers it
    has worked out ([span_element_openers]), and its [_translate_parts] is
    wrapped in [functools.lru_cache(maxsize=100)]: one cache for the whole
    process, shared by the formatters of all workers and keyed by the
    formatter and the value. *)

(** A key of the cache of [_translate_parts]: the formatter, by identity,
    and the value. *)
Definition parts_key : Type := (nat * text)%type.

Definition parts_key_eqb (a b : parts_key) : bool :=
  Nat.eqb (fst a) (fst b) && text_eqb (snd a) (snd b).

(** The cache, most recently used entry first. *)
Definition parts_cache : Type := list (parts_key * list text).

Definition maxsize : nat := 100.

(** The entry of a key, taken out of the cache. *)
Fixpoint cache_take (key : parts_key) (c : parts_cache)
    : option (list text * parts_cache) :=
  match c with
  | [] => None
  | (k, v) :: c' =>
    if parts_key_eqb k key then Some (v, c')
    else
      match cache_take key c' with
      | Some (v', c'') => Some (v', (k, v) :: c'')
      | None => None
      end
  end.

(** A call through the cache: a hit becomes the most recent entry; on a
    miss the parts are worked out and stored, the least recent entry making
    room in a full cache. *)
Definition cached_parts (key : parts_key) (c : parts_cache)
    : list text * parts_cache :=
  match cache_take key c with
  | Some (parts, c') => (parts, (key, parts) :: c')
  | None =>
    let parts := HtmlFormatter.split_nl (HtmlFormatter.escape (snd key)) in
    (parts, (key, parts) :: firstn (maxsize - 1) c)
  end.

(** [span_element_openers]: the openers by token type. *)
Definition openers : Type := list (token_type * text).

Fixpoint opener_of (d : openers) (ttype : token_type) : option text :=
  match d with
  | [] => None
  | (t, cspan) :: d' =>
    if list_eq_dec string_dec t ttype then Some cspan else opener_of d' ttype
  end.

(** What a turn of a worker reads and writes: its formatter (an identity
    and the dictionary of openers), the cache of the process, and the
    locals [lex] and [rv] of [run], unbound until first assigned. *)
Record worker_state : Type := WorkerState {
  w_formatter : nat;
  w_openers : openers;
  w_parts : parts_cache;
  w_lex : option lexer;
  w_rv : option payload
}.

(** A worker as [__init__] leaves it, in a process that has formatted
    nothing yet. *)
Definition new_worker (i : nat) : worker_state :=
  WorkerState i [] [] None None.

Definition set_openers (d : openers) (s : worker_state) : worker_state :=
  WorkerState (w_formatter s) d (w_parts s) (w_lex s) (w_rv s).

Definition set_parts (c : parts_cache) (s : worker_state) : worker_state :=
  WorkerState (w_formatter s) (w_openers s) c (w_lex s) (w_rv s).

Definition set_lex (l : lexer) (s : worker_state) : worker_state :=
  WorkerState (w_formatter s) (w_openers s) (w_parts s) (Some l) (w_rv s).

Definition set_rv (p : payload) (s : worker_state) : worker_state :=
  WorkerState (w_formatter s) (w_openers s) (w_parts s) (w_lex s) (Some p).

(** A statement of [run]: from a state to an outcome and the state it
    leaves, also when it raises. *)
Definition stmt (A : Type) : Type := worker_state -> result A * worker_state.

Definition ret {A} (a : A) : stmt A := fun s => (Ok a, s).

Definition call {A} (r : result A) : stmt A := fun s => (r, s).

Definition then_ {A B} (m : stmt A) (k : A -> stmt B) : stmt B :=
  fun s =>
    match m s with
    | (Ok a, s') => k a s'
    | (Raise e, s') => (Raise e, s')
    | (Hang, s') => (Hang, s')
    end.

Notation "x <~ c ;; k" := (then_ c (fun x => k))
  (at level 61, c at next level, right associativity).

(** [try: body  except cls as err: handler(err)], the handler going on from
    the state in which the body raised. *)
Definition try_stmt {A} (body : stmt A) (catches : exn_class -> bool)
    (handler : exn -> stmt A) : stmt A :=
  fun s =>
    match body s with
    | (Raise e, s') =>
      if catches (exn_cls e) then handler e s' else (Raise e, s')
    | r => r
    end.

(** Reading a local that no assignment has reached. *)
Definition unbound_local (name : string) : exn :=
  Exn (OtherError "UnboundLocalError")
      (str "cannot access local variable '" ++ str name ++ str "'").

Definition assign_lex (l : lexer) : stmt unit :=
  fun s => (Ok tt, set_lex l s).

Definition assign_rv (p : payload) : stmt unit :=
  fun s => (Ok tt, set_rv p s).

Definition read_lex : stmt lexer :=
  fun s =>
    match w_lex s with
    | Some l => (Ok l, s)
    | None => (Raise (unbound_local "lex"), s)
    end.

Definition read_rv : stmt payload :=
  fun s =>
    match w_rv s with
    | Some p => (Ok p, s)
    | None => (Raise (unbound_local "rv"), s)
    end.

Section PersistentWorker.

(** The collaborators of [ServerWorker], the formatter now being the
    object of line 125: its style table is what is left as a parameter. *)
Variable db : unicode_db.
Variable find_lexer_class : text -> option lexer_class.
Variable registry_tokens : lexer_class -> text -> result (list token).
Variable css : token_type -> text.
Variable send : payload -> result unit.

(** [self.span_element_openers[ttype]], worked out and stored on a
    [KeyError]. *)
Definition cached_opener (ttype : token_type) : stmt text :=
  fun s =>
    match opener_of (w_openers s) ttype with
    | Some cspan => (Ok cspan, s)
    | None =>
      let cspan := HtmlFormatter.span_open css ttype in
      (Ok cspan, set_openers ((ttype, cspan) :: w_openers s) s)
    end.

(** [self._translate_parts(value)]. *)
Definition translate_parts (value : text) : stmt (list text) :=
  fun s =>
    let (parts, c) := cached_parts (w_formatter s, value) (w_parts s) in
    (Ok parts, set_parts c s).

(** [_format_lines]: the loop over the tokens. *)
Fixpoint format_lines (toks : list token) (fs : HtmlFormatter.fstate)
    : stmt HtmlFormatter.fstate :=
  match toks with
  | [] => ret fs
  | (ttype, value) :: toks' =>
    cspan <~ cached_opener ttype ;;
    parts <~ translate_parts value ;;
    format_lines toks' (HtmlFormatter.pieces cspan parts fs)
  end.

(** [self.formatter.format] into a byte buffer. *)
Definition format_with (toks : list token) : stmt bytes :=
  fs <~ format_lines toks (HtmlFormatter.FState [] [] []) ;;
  call (utf8_encode (HtmlFormatter.finish fs)).

(** Lines 140-145. *)
Definition select_with (lang : text) : stmt unit :=
  if text_eqb lang (str "gdb") then assign_lex NewGDBLexer
  else if text_eqb lang (str "toml") then assign_lex NewTOMLLexer
  else l <~ call (get_lexer_by_name find_lexer_class lang) ;; assign_lex l.

(** Lines 139-147. *)
Definition resolve_with (lang : text) : stmt unit :=
  try_stmt (select_with lang) is_ClassNotFound
    (fun _ =>
       l <~ call (get_lexer_by_name find_lexer_class (str "text")) ;;
       assign_lex l).

(** The call of line 149, on the lexer that [lex] is bound to. *)
Definition highlight_with (code : text) : stmt bytes :=
  l <~ read_lex ;;
  toks <~ call (get_tokens db registry_tokens l code) ;;
  format_with toks.

(** Lines 137-151. *)
Definition render_with (lang code : text) : stmt unit :=
  _ <~ assign_rv (PText []) ;;
  try_stmt
    (_ <~ resolve_with lang ;;
     out <~ highlight_with code ;;
     assign_rv (PBytes out))
    is_ValueError
    (fun err => assign_rv (error_reply err)).

(** Lines 132-153: one turn of the loop, from the state that the turns
    before it left. *)
Definition serve_with (frames : list bytes) : stmt payload :=
  match frames with
  | [f_lang; f_code] =>
    lang <~ call (utf8_decode f_lang) ;;
    code <~ call (utf8_decode f_code) ;;
    _ <~ render_with lang code ;;
    rv <~ read_rv ;;
    _ <~ call (send rv) ;;
    ret rv
  | _ => call (Raise unpack_error)
  end.

(** The states a worker can be in when a message arrives: as [__init__]
    left it, after a turn that returned (the loop goes round only then),
    and after the formatter of another worker went through the cache of
    the process. *)
Inductive reachable : worker_state -> Prop :=
| reach_new (i : nat) : reachable (new_worker i)
| reach_turn (s s' : worker_state) (frames : list bytes) (rv : payload) :
    reachable s ->
    serve_with frames s = (Ok rv, s') ->
    reachable s'
| reach_other (s : worker_state) (j : nat) (value : text) :
    reachable s ->
    j <> w_formatter s ->
    reachable (set_parts (snd (cached_parts (j, value) (w_parts s))) s).

(** What the two memories hold is what would be worked out anew. *)
Definition memo_ok (s : worker_state) : Prop :=
  Forall (fun e => snd e = HtmlFormatter.span_open css (fst e))
         (w_openers s) /\
  Forall (fun e => snd e
                   = HtmlFormatter.split_nl
                       (HtmlFormatter.escape (snd (fst e))))
         (w_parts s).

End PersistentWorker.

(** What formatting leaves alone: the formatter's identity and the locals
    of the loop. *)
Definition same_locals (s s' : worker_state) : Prop :=
  w_formatter s' = w_formatter s /\ w_lex s' = w_lex s /\ w_rv s' = w_rv s.

(** ** ServerTask *)

Inductive event : Type :=
| Bind (socket address : string)
| NewWorker (i : Z)
| SetDaemon (i : Z)
| Start (i : Z)
| Proxy.

(** [range(n)]. *)
Definition range (n : Z) : list Z := map Z.of_nat (seq 0 (Z.to_nat n)).

Module ServerTask.

(** Lines 110-113: the body of the [for] loop for one [i]. *)
Definition spawn (i : Z) : list event := [NewWorker i; SetDaemon i; Start i].

(** Lines 103-115: what [run] does up to and including the call of
    [zmq.proxy], which serves until the context is torn down. *)
Definition run (size : Z) : list event :=
  [Bind "frontend" "tcp://127.0.0.1:5555"; Bind "backend" "inproc://backend"]
  ++ flat_map spawn (range (size + 1))
  ++ [Proxy].

End ServerTask.

(** [main] starts a [ServerTask(4)]. *)
Definition main : list event := ServerTask.run 4.

Definition is_start (e : event) : bool :=
  match e with Start _ => true | _ => false end.

Definition is_proxy (e : event) : bool :=
  match e with Proxy => true | _ => false end.

(** The workers started by a trace. *)
Definition started (tr : list event) : list Z :=
  flat_map (fun e => match e with Start i => [i] | _ => [] end) tr.

(** ** A concrete environment

    One instance of the collaborators, to run the worker on: the plain-text
    lexer of the library, a registry of three aliases, and the two ways a
    socket may treat a [str]. *)

(** [TextLexer.get_tokens]: the prepared text as one [Text] token. *)
Definition text_lexer_tokens (code : text) : list token :=
  [(Tok.Text, preprocess code)].

(** [alias.lower()] on ASCII letters. *)
Definition lower (t : text) : text :=
  map (fun c => if in_range 65 90 c then c + 32 else c) t.

Module Sample.

(** A small registry: the plain-text lexer, a second TOML lexer that the
    library could ship under the same alias, and a lexer that accepts ASCII
    only. *)
Definition registry : list (text * lexer_class) :=
  [ (str "text", TextLexer);
    (str "toml", LibLexer "pygments.lexers.configs.TOMLLexer");
    (str "raw", LibLexer "RawTokenLexer") ].

Fixpoint lookup (alias : text) (reg : list (text * lexer_class))
    : option lexer_class :=
  match reg with
  | [] => None
  | (a, c) :: reg' => if text_eqb a alias then Some c else lookup alias reg'
  end.

(** The registry is searched by the lower-cased alias. *)
Definition find_lexer_class (alias : text) : option lexer_class :=
  lookup (lower alias) registry.

Definition ascii_only_error : exn :=
  Exn UnicodeEncodeError (str "'ascii' codec can't encode character").

(** The tokenizers: [RawTokenLexer] encodes its input as ASCII first and
    raises on anything else; every lexer here that accepts its input returns
    it as plain text. *)
Definition registry_tokens (c : lexer_class) (code : text)
    : result (list token) :=
  match c with
  | TextLexer => Ok (text_lexer_tokens code)
  | LibLexer cls =>
    if String.eqb cls "RawTokenLexer" && negb (forallb (fun x => x <? 128) code)
    then Raise ascii_only_error
    else Ok (text_lexer_tokens code)
  end.

Definition formatter : list token -> result bytes :=
  HtmlFormatter.format HtmlFormatter.standard_css.

(** A socket that takes whatever it is given. *)
Definition send_any (p : payload) : result unit := Ok tt.

(** A socket that takes [bytes] only and raises [TypeError] on a [str], as
    pyzmq's [Socket.send] does under Python 3. *)
Definition send_bytes_only (p : payload) : result unit :=
  match p with
  | PBytes _ => Ok tt
  | PText _ => Raise (Exn TypeError (str "str objects not allowed"))
  end.

Definition serve (send : payload -> result unit) (frames : list bytes)
    : result payload :=
  serve ascii_db find_lexer_class registry_tokens formatter send frames.

Definition run (send : payload -> result unit) (msgs : list (list bytes))
    : list payload * worker_end :=
  run ascii_db find_lexer_class registry_tokens formatter send msgs.

Definition render (lang code : text) : result payload :=
  render ascii_db find_lexer_class registry_tokens formatter lang code.

End Sample.

(** ** Notions used by the properties *)

(** The marker as it appears on the wire. *)
Definition error_marker_bytes : bytes := map byte_of_N error_marker.

(** A reply begins with the engine-error marker. *)
Definition has_error_marker (p : payload) : bool :=
  match p with
  | PBytes b => startswith byte_eqb error_marker_bytes b
  | PText t => startswith N.eqb error_marker t
  end.

Definition payload_nonempty (p : payload) : bool :=
  match p with
  | PBytes (_ :: _) | PText (_ :: _) => true
  | _ => false
  end.

(** A language name that neither the override table nor the registry
    knows. *)
Definition unknown_language (find : text -> option lexer_class)
    (lang : text) : Prop :=
  lang <> str "gdb" /\ lang <> str "toml" /\ find lang = None.

(** The message a client sends for [(lang, code)], both ASCII literals. *)
Definition request (lang code : string) : list bytes :=
  [bytes_lit lang; bytes_lit code].

(** The text of a [bytes] value that holds ASCII only, for display. *)
Definition ascii_text (b : bytes) : string := string_of_list_byte b.

(** A [str] that holds scalar values only, as every decoded text does. *)
Definition all_scalar (t : text) : Prop :=
  Forall (fun c => is_scalar c = true) t.

(** ASCII characters that the escaping leaves alone. *)
Definition unescaped (m : text) : Prop :=
  Forall (fun a => HtmlFormatter.escape_char a = [a] /\ a < 128) m.

(** What the plain-text grammar produces on a source text: the rendering
    with the lexer that the registry holds under [text]. *)
Definition plain_text_render (db : unicode_db)
    (registry_tokens : lexer_class -> text -> result (list token))
    (formatter : list token -> result bytes) (code : text) : result bytes :=
  highlight db registry_tokens formatter code (RegistryLexer TextLexer).

(** The sentence of the specification on unknown languages, as it is
    written: whatever the source text, the reply is the plain-text
    rendering, non-empty, and carries no error marker. *)
Definition unknown_language_claim (db : unicode_db)
    (find_lexer_class : text -> option lexer_class)
    (registry_tokens : lexer_class -> text -> result (list token))
    (formatter : list token -> result bytes) : Prop :=
  forall lang code : text,
    unknown_language find_lexer_class lang ->
    exists out,
      render db find_lexer_class registry_tokens formatter lang code
      = Ok (PBytes out) /\
      plain_text_render db registry_tokens formatter code = Ok out /\
      payload_nonempty (PBytes out) = true /\
      has_error_marker (PBytes out) = false.

(** The markup of one token: its value inside a span of its CSS class. *)
Definition span (cls body : string) : text :=
  str "<span class=" ++ [dquote] ++ str cls ++ [dquote] ++ str ">"
  ++ str body ++ str "</span>".

(** [key = "value"], the source text of the TOML scenario. *)
Definition toml_sample : text :=
  str "key = " ++ [dquote] ++ str "value" ++ [dquote].

(** ** Notions used by the lexer properties *)

(** A pattern without capturing groups. *)
Fixpoint nogroups (r : regex) : bool :=
  match r with
  | REps | RChar _ | RAny | RSet _ _ | REol | RWordB => true
  | RSeq r1 r2 | RAlt r1 r2 => nogroups r1 && nogroups r2
  | RStar _ r1 => nogroups r1
  | RGroup _ _ => false
  end.

(** The bodies of a pattern that is a plain sequence of groups numbered
    from [i] on, as the patterns handed to [bygroups] are. *)
Fixpoint seq_groups (i : nat) (r : regex) : option (list regex) :=
  match r with
  | RGroup j b =>
    if Nat.eqb j i && nogroups b then Some [b] else None
  | RSeq (RGroup j b) r' =>
    if Nat.eqb j i && nogroups b
    then option_map (cons b) (seq_groups (S i) r')
    else None
  | _ => None
  end.

(** A rule whose tokens together spell out what its pattern matched: one
    token for the whole match, or one per group of a pattern that is
    nothing but those groups. *)
Definition covers (rl : rule) : bool :=
  match r_action rl with
  | Emit _ => true
  | ByGroups ts =>
    match seq_groups 1 (r_pattern rl) with
    | Some bodies => Nat.eqb (List.length bodies) (List.length ts)
    | None => false
    end
  end.

Definition all_cover (def : lexer_def) : bool :=
  forallb (fun st => forallb covers (snd st)) def.

(** The groups of a match of such a pattern, as the matcher records them:
    latest first. *)
Definition group_list (i : nat) (vs : list text) : list (nat * text) :=
  rev (combine (seq i (List.length vs)) vs).

(** The text that a token stream spells. *)
Definition spelled (toks : list token) : text := List.concat (map snd toks).

(** The stacks that [GDBLexer] can be in: [root], under any number of
    [struct]. *)
Fixpoint gdb_stack (stack : list string) : bool :=
  match stack with
  | [] => false
  | [st] => String.eqb st "root"
  | st :: below => String.eqb st "struct" && gdb_stack below
  end.

(** The token types a rule can yield. *)
Definition rule_types (rl : rule) : list token_type :=
  match r_action rl with
  | Emit t => [t]
  | ByGroups ts => ts
  end.

Definition token_type_eqb (a b : token_type) : bool :=
  if list_eq_dec string_dec a b then true else false.

(** The catch-all pattern [.]. *)
Definition is_any (r : regex) : bool :=
  match r with RAny => true | _ => false end.

(** The transitions that the rules of a state of [GDBLexer] take: [root]
    stays or pushes [struct]; [struct] stays, pushes itself or pops. *)
Definition gdb_transition_ok (st : string) (tr : transition) : bool :=
  match tr with
  | Stay => true
  | Push new => String.eqb st "root" && String.eqb new "struct"
  | PushSame | Pop => String.eqb st "struct"
  end.

(** The token types that the rules of a lexer definition name. *)
Definition def_types (def : lexer_def) : list token_type :=
  flat_map (fun st => flat_map rule_types (snd st)) def.

(** The characters that can start a name at line 35, and those that can
    continue it. *)
Definition toml_name_start (c : N) : bool :=
  in_range 97 122 c || in_range 65 90 c || (c =? 95).

Definition toml_name_char (c : N) : bool :=
  in_range 97 122 c || in_range 65 90 c || in_range 48 57 c
  || (c =? 95) || (c =? 45).

(** Where [$] matches: at the end of the text or before a newline. *)
Definition at_eol (t : text) : bool :=
  match t with
  | [] => true
  | c :: _ => c =? 10
  end.

(** Where a name must stop: at the end of the text or before a character
    that cannot continue it. *)
Definition name_ends (t : text) : bool :=
  match t with
  | [] => true
  | c :: _ => negb (toml_name_char c)
  end.

(** What follows a literal prefix, when the text has it. *)
Fixpoint after_prefix (p t : text) : option text :=
  match p, t with
  | [], _ => Some t
  | a :: p', c :: t' => if c =? a then after_prefix p' t' else None
  | _ :: _, [] => None
  end.

(** The text begins with [true] or [false] at the end of a line, which is
    what the pattern of line 34 asks for. *)
Definition keyword_at (t : text) : bool :=
  match after_prefix (str "true") t with
  | Some tl => at_eol tl
  | None => false
  end ||
  match after_prefix (str "false") t with
  | Some tl => at_eol tl
  | None => false
  end.

(** The character before the position once [w] has been read. *)
Definition last_char (prev : option N) (w : text) : option N :=
  match rev w with
  | c :: _ => Some c
  | [] => prev
  end.

(** A formatter state that holds scalar values only. *)
Definition fstate_scalar (st : HtmlFormatter.fstate) : Prop :=
  all_scalar (HtmlFormatter.f_out st) /\
  all_scalar (HtmlFormatter.f_lspan st) /\
  Forall all_scalar (HtmlFormatter.f_line st).

(** The token types that the lexers of pig.py can yield: those of their
    rules and the two of the engine. *)
Definition pig_token_types : list token_type :=
  Tok.Error :: Tok.Whitespace
  :: def_types TOMLLexer.tokens ++ def_types GDBLexer.tokens.

(** * Properties *)

Lemma text_eqb_eq (x y : text) : text_eqb x y = true <-> x = y.
Proof.
  unfold text_eqb. destruct (text_eq_dec x y); split; congruence.
Qed.

Lemma text_eqb_neq (x y : text) : text_eqb x y = false <-> x <> y.
Proof.
  unfold text_eqb. destruct (text_eq_dec x y); split; congruence.
Qed.

Lemma text_eqb_refl (x : text) : text_eqb x x = true.
Proof. now apply text_eqb_eq. Qed.

(** ** Grammar resolution *)

Section Resolution.
Variable find_lexer_class : text -> option lexer_class.

Lemma get_lexer_by_name_registry (alias : text) (lex : lexer) :
  get_lexer_by_name find_lexer_class alias = Ok lex ->
  exists c, lex = RegistryLexer c /\ find_lexer_class alias = Some c.
Proof.
  unfold get_lexer_by_name.
  destruct (find_lexer_class alias) as [c|]; intros H; inversion H.
  now exists c.
Qed.

Lemma select_lexer_other (lang : text) :
  lang <> str "gdb" -> lang <> str "toml" ->
  select_lexer find_lexer_class lang = get_lexer_by_name find_lexer_class lang.
Proof.
  intros Hg Ht. unfold select_lexer.
  apply text_eqb_neq in Hg. apply text_eqb_neq in Ht.
  now rewrite Hg, Ht.
Qed.

Lemma resolve_gdb : resolve find_lexer_class (str "gdb") = Ok NewGDBLexer.
Proof. reflexivity. Qed.

Lemma resolve_toml : resolve find_lexer_class (str "toml") = Ok NewTOMLLexer.
Proof. reflexivity. Qed.

(** Outside the override table, the result comes from the registry: the
    class found for the name, or else whatever [text] resolves to. *)
Lemma resolve_other (lang : text) :
  lang <> str "gdb" -> lang <> str "toml" ->
  resolve find_lexer_class lang =
    match find_lexer_class lang with
    | Some c => Ok (RegistryLexer c)
    | None => get_lexer_by_name find_lexer_class (str "text")
    end.
Proof.
  intros Hg Ht. unfold resolve.
  rewrite (select_lexer_other lang Hg Ht).
  unfold get_lexer_by_name.
  destruct (find_lexer_class lang); reflexivity.
Qed.

Lemma resolve_other_registry (lang : text) (lex : lexer) :
  lang <> str "gdb" -> lang <> str "toml" ->
  resolve find_lexer_class lang = Ok lex -> exists c, lex = RegistryLexer c.
Proof.
  intros Hg Ht. rewrite (resolve_other lang Hg Ht).
  destruct (find_lexer_class lang) as [c|].
  - intros H; inversion H. now exists c.
  - intros H. apply get_lexer_by_name_registry in H.
    destruct H as [c [-> _]]. now exists c.
Qed.

(** A name that nothing knows resolves to whatever the registry holds
    under [text]. *)
Lemma resolve_unknown (plain : lexer_class) (lang : text) :
  find_lexer_class (str "text") = Some plain ->
  unknown_language find_lexer_class lang ->
  resolve find_lexer_class lang = Ok (RegistryLexer plain).
Proof.
  intros Htext (Hg & Ht & Hnone).
  rewrite (resolve_other lang Hg Ht), Hnone.
  unfold get_lexer_by_name. now rewrite Htext.
Qed.

(** C4. Grammar resolution is total: provided the registry holds the
    plain-text grammar under [text], every language name resolves to a lexer
    and nothing is raised; a name that neither the override table nor the
    registry knows resolves to the plain-text grammar. *)
Theorem resolve_total (plain : lexer_class) (lang : text) :
  find_lexer_class (str "text") = Some plain ->
  (exists lex, resolve find_lexer_class lang = Ok lex) /\
  (unknown_language find_lexer_class lang ->
   resolve find_lexer_class lang = Ok (RegistryLexer plain)).
Proof.
  intros Htext.
  assert (Hfall : get_lexer_by_name find_lexer_class (str "text") = Ok (RegistryLexer plain)).
  { unfold get_lexer_by_name. now rewrite Htext. }
  split.
  - destruct (text_eq_dec lang (str "gdb")) as [-> | Hg].
    { exists NewGDBLexer. apply resolve_gdb. }
    destruct (text_eq_dec lang (str "toml")) as [-> | Ht].
    { exists NewTOMLLexer. apply resolve_toml. }
    rewrite (resolve_other lang Hg Ht).
    destruct (find_lexer_class lang) as [c|].
    + now exists (RegistryLexer c).
    + now exists (RegistryLexer plain).
  - intros (Hg & Ht & Hnone).
    rewrite (resolve_other lang Hg Ht), Hnone. exact Hfall.
Qed.

(** C5. The override table comes first and matches exactly: [gdb] and
    [toml] select the lexers of pig.py whatever the registry holds under
    those names, and no other spelling of a name selects them. *)
Theorem override_exact_match (lang : text) :
  resolve find_lexer_class (str "gdb") = Ok NewGDBLexer /\
  resolve find_lexer_class (str "toml") = Ok NewTOMLLexer /\
  (resolve find_lexer_class lang = Ok NewGDBLexer <-> lang = str "gdb") /\
  (resolve find_lexer_class lang = Ok NewTOMLLexer <-> lang = str "toml") /\
  resolve find_lexer_class (str "GDB") <> Ok NewGDBLexer /\
  resolve find_lexer_class (str "TOML") <> Ok NewTOMLLexer /\
  resolve find_lexer_class (str "Toml") <> Ok NewTOMLLexer.
Proof.
  assert (Hgdb : forall l, resolve find_lexer_class l = Ok NewGDBLexer -> l = str "gdb").
  { intros l H.
    destruct (text_eq_dec l (str "gdb")) as [-> | Hg]; [reflexivity|].
    destruct (text_eq_dec l (str "toml")) as [-> | Ht].
    { rewrite resolve_toml in H. discriminate. }
    destruct (resolve_other_registry l _ Hg Ht H) as [c Hc]. discriminate. }
  assert (Htoml : forall l, resolve find_lexer_class l = Ok NewTOMLLexer -> l = str "toml").
  { intros l H.
    destruct (text_eq_dec l (str "toml")) as [-> | Ht]; [reflexivity|].
    destruct (text_eq_dec l (str "gdb")) as [-> | Hg].
    { rewrite resolve_gdb in H. discriminate. }
    destruct (resolve_other_registry l _ Hg Ht H) as [c Hc]. discriminate. }
  repeat split.
  - apply Hgdb.
  - intros ->. apply resolve_gdb.
  - apply Htoml.
  - intros ->. apply resolve_toml.
  - intros H. apply Hgdb in H. discriminate.
  - intros H. apply Htoml in H. discriminate.
  - intros H. apply Htoml in H. discriminate.
Qed.

End Resolution.

(** C4 at the sample registry: an unknown name falls back to the plain-text
    lexer. *)
Lemma resolve_total_witness :
  (exists lex,
     resolve Sample.find_lexer_class (str "not-a-real-language") = Ok lex) /\
  resolve Sample.find_lexer_class (str "not-a-real-language")
  = Ok (RegistryLexer TextLexer).
Proof.
  destruct (resolve_total Sample.find_lexer_class TextLexer
              (str "not-a-real-language") eq_refl) as [Hex Hfall].
  split; [exact Hex|].
  apply Hfall. unfold unknown_language.
  split; [discriminate | split; [discriminate | reflexivity]].
Defined.

(** ** The worker loop *)

Lemma startswith_app {A} (eqb : A -> A -> bool) (p s : list A) :
  (forall a, eqb a a = true) -> startswith eqb p (p ++ s) = true.
Proof.
  intros Hrefl. induction p as [|a p IH]; simpl; [reflexivity|].
  now rewrite Hrefl, IH.
Qed.

Lemma contains_app {A} (eqb : A -> A -> bool) (q p s : list A) :
  (forall a, eqb a a = true) -> contains eqb p (q ++ p ++ s) = true.
Proof.
  intros Hrefl. induction q as [|a q IH]; simpl.
  - destruct (p ++ s) eqn:E; simpl.
    + destruct p; [reflexivity | discriminate].
    + rewrite <- E, (startswith_app eqb p s Hrefl). reflexivity.
  - rewrite IH. apply orb_true_r.
Qed.

Section Worker.
Variable db : unicode_db.
Variable find_lexer_class : text -> option lexer_class.
Variable registry_tokens : lexer_class -> text -> result (list token).
Variable formatter : list token -> result bytes.
Variable send : payload -> result unit.

Lemma render_success (lang code : text) (lex : lexer) (out : bytes) :
  resolve find_lexer_class lang = Ok lex ->
  highlight db registry_tokens formatter code lex = Ok out ->
  render db find_lexer_class registry_tokens formatter lang code
  = Ok (PBytes out).
Proof.
  intros Hres Hhl. unfold render. rewrite Hres. simpl. rewrite Hhl.
  reflexivity.
Qed.

(** A [ValueError] raised by the rendering is caught at line 150 and turned
    into the text of line 151. *)
Lemma render_value_error (lang code : text) (lex : lexer) (err : exn) :
  resolve find_lexer_class lang = Ok lex ->
  highlight db registry_tokens formatter code lex = Raise err ->
  is_ValueError (exn_cls err) = true ->
  render db find_lexer_class registry_tokens formatter lang code
  = Ok (error_reply err).
Proof.
  intros Hres Hhl Hval. unfold render. rewrite Hres. simpl. rewrite Hhl.
  simpl. now rewrite Hval.
Qed.

(** Any other exception of the rendering leaves the [try] as it is. *)
Lemma render_other_error (lang code : text) (lex : lexer) (err : exn) :
  resolve find_lexer_class lang = Ok lex ->
  highlight db registry_tokens formatter code lex = Raise err ->
  is_ValueError (exn_cls err) = false ->
  render db find_lexer_class registry_tokens formatter lang code = Raise err.
Proof.
  intros Hres Hhl Hval. unfold render. rewrite Hres. simpl. rewrite Hhl.
  simpl. now rewrite Hval.
Qed.

Lemma error_reply_marked (err : exn) :
  has_error_marker (error_reply err) = true /\
  (exists detail, error_reply err = PText (error_marker ++ detail)
                  /\ detail = exn_str err) /\
  contains N.eqb (exn_str err) (error_marker ++ exn_str err) = true.
Proof.
  split; [|split].
  - unfold error_reply, has_error_marker.
    apply startswith_app, N.eqb_refl.
  - now exists (exn_str err).
  - rewrite <- (app_nil_r (exn_str err)) at 2.
    apply contains_app, N.eqb_refl.
Qed.

(** The reply of a turn is what [render] computed, once [send] took it. *)
Lemma serve_sent (f_lang f_code : bytes) (lang code : text) (rv : payload) :
  utf8_decode f_lang = Ok lang -> utf8_decode f_code = Ok code ->
  render db find_lexer_class registry_tokens formatter lang code = Ok rv ->
  serve db find_lexer_class registry_tokens formatter send [f_lang; f_code]
  = (_ <- send rv ;; Ok rv).
Proof.
  intros Hl Hc Hr. unfold serve. rewrite Hl. simpl. rewrite Hc. simpl.
  rewrite Hr. reflexivity.
Qed.

Lemma run_cons_ok (m : list bytes) (ms : list (list bytes)) (rv : payload) :
  serve db find_lexer_class registry_tokens formatter send m = Ok rv ->
  run db find_lexer_class registry_tokens formatter send (m :: ms)
  = (rv :: fst (run db find_lexer_class registry_tokens formatter send ms),
     snd (run db find_lexer_class registry_tokens formatter send ms)).
Proof.
  intros H. simpl. rewrite H.
  destruct (run db find_lexer_class registry_tokens formatter send ms).
  reflexivity.
Qed.

Lemma run_cons_raise (m : list bytes) (ms : list (list bytes)) (e : exn) :
  serve db find_lexer_class registry_tokens formatter send m = Raise e ->
  run db find_lexer_class registry_tokens formatter send (m :: ms)
  = ([], Died e).
Proof. intros H. simpl. now rewrite H. Qed.

(** C2. The loop body lets an exception escape: a message whose language
    frame is not valid UTF-8 raises at line 134, before the [try] of line
    138; nothing is sent and the loop ends, with every later request
    unserved.  The same holds for a message that does not have exactly two
    frames (line 132). *)
Theorem invalid_utf8_ends_worker (f_code : bytes)
    (rest : list (list bytes)) :
  serve db find_lexer_class registry_tokens formatter send [[xff]; f_code]
  = Raise decode_error /\
  run db find_lexer_class registry_tokens formatter send
    ([[xff]; f_code] :: rest) = ([], Died decode_error) /\
  run db find_lexer_class registry_tokens formatter send
    ([f_code] :: rest) = ([], Died unpack_error).
Proof.
  split; [reflexivity|]. split; reflexivity.
Qed.

(** On a socket that refuses a [str], the reply of line 151 is never sent:
    [send] raises outside every handler. *)
Lemma text_reply_not_sent (f_lang f_code : bytes) (lang code : text)
    (lex : lexer) (err : exn) (rest : list (list bytes)) :
  (forall p, send p = Sample.send_bytes_only p) ->
  utf8_decode f_lang = Ok lang -> utf8_decode f_code = Ok code ->
  resolve find_lexer_class lang = Ok lex ->
  highlight db registry_tokens formatter code lex = Raise err ->
  is_ValueError (exn_cls err) = true ->
  run db find_lexer_class registry_tokens formatter send
    ([f_lang; f_code] :: rest)
  = ([], Died (Exn TypeError (str "str objects not allowed"))).
Proof.
  intros Hsend Hl Hc Hres Hhl Hval.
  apply run_cons_raise.
  rewrite (serve_sent _ _ _ _ _ Hl Hc (render_value_error _ _ _ _ Hres Hhl Hval)).
  rewrite Hsend. reflexivity.
Qed.

(** On a socket that takes it, the reply of line 151 is sent and the loop
    goes on to the next request. *)
Lemma text_reply_sent (f_lang f_code : bytes) (lang code : text)
    (lex : lexer) (err : exn) (rest : list (list bytes)) :
  send (error_reply err) = Ok tt ->
  utf8_decode f_lang = Ok lang -> utf8_decode f_code = Ok code ->
  resolve find_lexer_class lang = Ok lex ->
  highlight db registry_tokens formatter code lex = Raise err ->
  is_ValueError (exn_cls err) = true ->
  run db find_lexer_class registry_tokens formatter send
    ([f_lang; f_code] :: rest)
  = (error_reply err
       :: fst (run db find_lexer_class registry_tokens formatter send rest),
     snd (run db find_lexer_class registry_tokens formatter send rest)).
Proof.
  intros Hsend Hl Hc Hres Hhl Hval.
  apply run_cons_ok.
  rewrite (serve_sent _ _ _ _ _ Hl Hc (render_value_error _ _ _ _ Hres Hhl Hval)).
  rewrite Hsend. reflexivity.
Qed.

End Worker.

(** ** What the worker remembers does not show

    The formatter's dictionary and the cache of the process only ever hold
    what would be worked out anew, and every path to lines 149 and 153
    assigns [lex] and [rv] first. *)

Section Persistent.
Variable db : unicode_db.
Variable find_lexer_class : text -> option lexer_class.
Variable registry_tokens : lexer_class -> text -> result (list token).
Variable css : token_type -> text.
Variable send : payload -> result unit.

Lemma parts_key_eqb_eq (a b : parts_key) : parts_key_eqb a b = true -> a = b.
Proof.
  destruct a as [i v], b as [j w]. unfold parts_key_eqb. simpl.
  intros H. apply andb_true_iff in H. destruct H as [Hi Hv].
  apply Nat.eqb_eq in Hi. apply text_eqb_eq in Hv. now subst.
Qed.

(** An entry found in a cache that holds only what would be worked out is
    what would be worked out, and the rest of the cache is as sound. *)
Lemma cache_take_ok (key : parts_key) (c : parts_cache)
    (parts : list text) (c' : parts_cache) :
  Forall (fun e => snd e = HtmlFormatter.split_nl
                             (HtmlFormatter.escape (snd (fst e)))) c ->
  cache_take key c = Some (parts, c') ->
  parts = HtmlFormatter.split_nl (HtmlFormatter.escape (snd key)) /\
  Forall (fun e => snd e = HtmlFormatter.split_nl
                             (HtmlFormatter.escape (snd (fst e)))) c'.
Proof.
  revert parts c'. induction c as [|[k v] c IH]; intros parts c' Hc H;
    [discriminate|].
  simpl in H. inversion Hc as [|? ? Hkv Hc0]; subst.
  destruct (parts_key_eqb k key) eqn:E.
  - apply parts_key_eqb_eq in E. subst k. inversion H; subst.
    split; [exact Hkv | exact Hc0].
  - destruct (cache_take key c) as [[v' c'']|] eqn:E'; [|discriminate].
    inversion H; subst. destruct (IH _ _ Hc0 eq_refl) as [Hp Hc''].
    split; [exact Hp|]. constructor; assumption.
Qed.

Lemma Forall_firstn {A} (P : A -> Prop) (n : nat) (l : list A) :
  Forall P l -> Forall P (firstn n l).
Proof.
  revert n. induction l as [|a l IH]; intros [|n] H; simpl;
    try constructor; inversion H; subst; auto.
Qed.

(** A call through the cache gives what the function gives, and leaves the
    cache sound. *)
Lemma cached_parts_ok (key : parts_key) (c : parts_cache) :
  Forall (fun e => snd e = HtmlFormatter.split_nl
                             (HtmlFormatter.escape (snd (fst e)))) c ->
  fst (cached_parts key c)
  = HtmlFormatter.split_nl (HtmlFormatter.escape (snd key)) /\
  Forall (fun e => snd e = HtmlFormatter.split_nl
                             (HtmlFormatter.escape (snd (fst e))))
         (snd (cached_parts key c)).
Proof.
  intros Hc. unfold cached_parts.
  destruct (cache_take key c) as [[parts c']|] eqn:E; cbn [fst snd].
  - destruct (cache_take_ok _ _ _ _ Hc E) as [Hp Hc'].
    split; [exact Hp|]. constructor; [exact Hp | exact Hc'].
  - split; [reflexivity|]. constructor; [reflexivity|].
    now apply Forall_firstn.
Qed.

Lemma opener_of_ok (d : openers) (ttype : token_type) (cspan : text) :
  Forall (fun e => snd e = HtmlFormatter.span_open css (fst e)) d ->
  opener_of d ttype = Some cspan ->
  cspan = HtmlFormatter.span_open css ttype.
Proof.
  induction d as [|[t o] d IH]; intros Hd H; [discriminate|].
  simpl in H. inversion Hd as [|? ? Hto Hd0]; subst.
  destruct (list_eq_dec string_dec t ttype) as [->|_].
  - inversion H; subst. exact Hto.
  - now apply IH.
Qed.

Lemma cached_opener_ok (ttype : token_type) (s : worker_state) :
  memo_ok css s ->
  exists s',
    cached_opener css ttype s = (Ok (HtmlFormatter.span_open css ttype), s')
    /\ memo_ok css s' /\ same_locals s s'.
Proof.
  intros [Ho Hp]. unfold cached_opener.
  destruct (opener_of (w_openers s) ttype) as [cspan|] eqn:E.
  - rewrite (opener_of_ok _ _ _ Ho E). exists s.
    repeat split; assumption.
  - eexists. split; [reflexivity|]. split; [|repeat split].
    split; simpl; [constructor; [reflexivity | exact Ho] | exact Hp].
Qed.

Lemma translate_parts_ok (value : text) (s : worker_state) :
  memo_ok css s ->
  exists s',
    translate_parts value s
    = (Ok (HtmlFormatter.split_nl (HtmlFormatter.escape value)), s')
    /\ memo_ok css s' /\ same_locals s s'.
Proof.
  intros [Ho Hp]. unfold translate_parts.
  destruct (cached_parts_ok (w_formatter s, value) _ Hp) as [Hv Hc].
  destruct (cached_parts (w_formatter s, value) (w_parts s)) as [parts c].
  simpl in Hv, Hc. subst parts. eexists. split; [reflexivity|].
  split; [|repeat split]. split; simpl; assumption.
Qed.

Lemma format_lines_ok (toks : list token) :
  forall (fs : HtmlFormatter.fstate) (s : worker_state),
    memo_ok css s ->
    exists s',
      format_lines css toks fs s
      = (Ok (fold_left (HtmlFormatter.format_token css) toks fs), s')
      /\ memo_ok css s' /\ same_locals s s'.
Proof.
  induction toks as [|[ttype value] toks IH]; intros fs s Hs.
  - exists s. repeat split; try reflexivity; apply Hs.
  - destruct (cached_opener_ok ttype s Hs) as (s1 & E1 & Hs1 & L1).
    destruct (translate_parts_ok value s1 Hs1) as (s2 & E2 & Hs2 & L2).
    destruct (IH (HtmlFormatter.pieces (HtmlFormatter.span_open css ttype)
                    (HtmlFormatter.split_nl (HtmlFormatter.escape value)) fs)
                 s2 Hs2) as (s3 & E3 & Hs3 & L3).
    exists s3. split; [|split; [exact Hs3|]].
    + simpl. unfold then_. rewrite E1, E2. exact E3.
    + unfold same_locals in *. intuition congruence.
Qed.

Lemma format_with_ok (toks : list token) (s : worker_state) :
  memo_ok css s ->
  exists s',
    format_with css toks s = (HtmlFormatter.format css toks, s')
    /\ memo_ok css s' /\ same_locals s s'.
Proof.
  intros Hs.
  destruct (format_lines_ok toks (HtmlFormatter.FState [] [] []) s Hs)
    as (s' & E & Hs' & L).
  exists s'. split; [|split; assumption].
  unfold format_with, then_. rewrite E. unfold call.
  unfold HtmlFormatter.format, HtmlFormatter.format_unencoded.
  now destruct (utf8_encode _).
Qed.


(** Lines 139-147 bind [lex] to what the resolution gives, and to nothing
    when it raises. *)
Lemma resolve_with_ok (lang : text) (s : worker_state) :
  resolve_with find_lexer_class lang s
  = match resolve find_lexer_class lang with
    | Ok l => (Ok tt, set_lex l s)
    | Raise e => (Raise e, s)
    | Hang => (Hang, s)
    end.
Proof.
  unfold resolve_with, resolve, select_with, select_lexer, try_stmt,
    try_except, assign_lex, then_, call, get_lexer_by_name.
  destruct (text_eqb lang (str "gdb")); [reflexivity|].
  destruct (text_eqb lang (str "toml")); [reflexivity|].
  destruct (find_lexer_class lang); [reflexivity|].
  cbn [exn_cls class_not_found is_ClassNotFound].
  destruct (find_lexer_class (str "text")); reflexivity.
Qed.

Lemma highlight_with_ok (code : text) (l : lexer) (s : worker_state) :
  memo_ok css s -> w_lex s = Some l ->
  exists s',
    highlight_with db registry_tokens css code s
    = (highlight db registry_tokens (HtmlFormatter.format css) code l, s')
    /\ memo_ok css s' /\ same_locals s s'.
Proof.
  intros Hs Hl. unfold highlight_with, highlight, then_, read_lex, call.
  rewrite Hl.
  destruct (get_tokens db registry_tokens l code) as [toks|e|].
  - exact (format_with_ok toks s Hs).
  - exists s. repeat split; apply Hs.
  - exists s. repeat split; apply Hs.
Qed.

(** Lines 137-151 leave in [rv] what the rendering gives, whatever the
    memories and the locals held before. *)
Lemma render_with_ok (lang code : text) (s : worker_state) :
  memo_ok css s ->
  exists s',
    render_with db find_lexer_class registry_tokens css lang code s
    = (_ <- render db find_lexer_class registry_tokens
              (HtmlFormatter.format css) lang code ;; Ok tt, s')
    /\ memo_ok css s' /\ w_formatter s' = w_formatter s /\
    (forall rv, render db find_lexer_class registry_tokens
                  (HtmlFormatter.format css) lang code = Ok rv ->
                w_rv s' = Some rv).
Proof.
  intros Hs.
  assert (Hs0 : memo_ok css (set_rv (PText []) s)) by exact Hs.
  unfold render_with, then_ at 1, assign_rv at 1, try_stmt.
  unfold then_ at 1. rewrite resolve_with_ok.
  destruct (resolve find_lexer_class lang) as [l|e|] eqn:Hres.
  - assert (Hs1 : memo_ok css (set_lex l (set_rv (PText []) s)))
      by exact Hs.
    destruct (highlight_with_ok code l _ Hs1 eq_refl)
      as (s2 & E & Hs2 & Hf & _ & _).
    unfold then_. rewrite E.
    destruct (highlight db registry_tokens (HtmlFormatter.format css) code l)
      as [out|e|] eqn:Hhl.
    + rewrite (render_success db find_lexer_class registry_tokens _
                 lang code l out Hres Hhl).
      eexists. split; [reflexivity|]. split; [exact Hs2|].
      split; [exact Hf|]. intros rv Hrv. inversion Hrv. reflexivity.
    + destruct (is_ValueError (exn_cls e)) eqn:Hv.
      * rewrite (render_value_error db find_lexer_class registry_tokens _
                   lang code l e Hres Hhl Hv).
        eexists. split; [reflexivity|]. split; [exact Hs2|].
        split; [exact Hf|]. intros rv Hrv. inversion Hrv. reflexivity.
      * rewrite (render_other_error db find_lexer_class registry_tokens _
                   lang code l e Hres Hhl Hv).
        eexists. split; [reflexivity|]. split; [exact Hs2|].
        split; [exact Hf|]. discriminate.
    + assert (Hr : render db find_lexer_class registry_tokens
                     (HtmlFormatter.format css) lang code = Hang).
      { unfold render. rewrite Hres. cbn [bind]. now rewrite Hhl. }
      rewrite Hr.
      eexists. split; [reflexivity|]. split; [exact Hs2|].
      split; [exact Hf|]. discriminate.
  - assert (Hr : render db find_lexer_class registry_tokens
                   (HtmlFormatter.format css) lang code
                 = if is_ValueError (exn_cls e) then Ok (error_reply e)
                   else Raise e).
    { unfold render. now rewrite Hres. }
    rewrite Hr. destruct (is_ValueError (exn_cls e)).
    + eexists. split; [reflexivity|]. split; [exact Hs0|].
      split; [reflexivity|]. intros rv Hrv. inversion Hrv. reflexivity.
    + eexists. split; [reflexivity|]. split; [exact Hs0|].
      split; [reflexivity|]. discriminate.
  - assert (Hr : render db find_lexer_class registry_tokens
                   (HtmlFormatter.format css) lang code = Hang).
    { unfold render. now rewrite Hres. }
    rewrite Hr.
    eexists. split; [reflexivity|]. split; [exact Hs0|].
    split; [reflexivity|]. discriminate.
Qed.

(** A turn from a sound state comes to what the turn of a worker without
    memories comes to, and leaves a sound state. *)
Lemma serve_with_ok (frames : list bytes) (s : worker_state) :
  memo_ok css s ->
  exists s',
    serve_with db find_lexer_class registry_tokens css send frames s
    = (serve db find_lexer_class registry_tokens (HtmlFormatter.format css)
         send frames, s')
    /\ memo_ok css s' /\ w_formatter s' = w_formatter s.
Proof.
  intros Hs. unfold serve_with, serve.
  destruct frames as [|f_lang [|f_code [|f3 frames]]];
    try (exists s; split; [reflexivity | split; [exact Hs | reflexivity]]).
  unfold then_ at 1, call at 1.
  destruct (utf8_decode f_lang) as [lang|e|]; unfold bind at 1;
    try (exists s; split; [reflexivity | split; [exact Hs | reflexivity]]).
  unfold then_ at 1, call at 1.
  destruct (utf8_decode f_code) as [code|e|]; unfold bind at 1;
    try (exists s; split; [reflexivity | split; [exact Hs | reflexivity]]).
  destruct (render_with_ok lang code s Hs) as (s' & E & Hs' & Hf & Hrv).
  unfold then_ at 1. rewrite E.
  destruct (render db find_lexer_class registry_tokens
              (HtmlFormatter.format css) lang code) as [rv|e|];
    unfold bind at 1 2;
    try (exists s'; split; [reflexivity | split; [exact Hs' | exact Hf]]).
  unfold then_ at 1, read_rv. rewrite (Hrv rv eq_refl).
  unfold then_, call, ret. exists s'.
  destruct (send rv) as [[]|e|]; unfold bind;
    (split; [reflexivity | split; [exact Hs' | exact Hf]]).
Qed.

(** The state a turn leaves is one a worker can be in, when the turn
    returned. *)
Lemma reach_served (s : worker_state) (frames : list bytes) :
  reachable db find_lexer_class registry_tokens css send s ->
  returned
    (fst (serve_with db find_lexer_class registry_tokens css send frames s))
  = true ->
  reachable db find_lexer_class registry_tokens css send
    (snd (serve_with db find_lexer_class registry_tokens css send frames s)).
Proof.
  intros H E.
  destruct (serve_with db find_lexer_class registry_tokens css send frames s)
    as [[rv|e|] s'] eqn:Es; try discriminate.
  exact (reach_turn _ _ _ _ _ s s' frames rv H Es).
Qed.

(** Every state a worker can be in is sound. *)
Lemma reachable_memo_ok (s : worker_state) :
  reachable db find_lexer_class registry_tokens css send s -> memo_ok css s.
Proof.
  induction 1 as [i | s s' frames rv _ IH E | s j value _ IH _].
  - split; constructor.
  - destruct (serve_with_ok frames s IH) as (s0 & E0 & H0 & _).
    rewrite E in E0. now inversion E0.
  - destruct IH as [Ho Hp]. split; [exact Ho|].
    exact (proj2 (cached_parts_ok (j, value) _ Hp)).
Qed.

(** C8. The handler is deterministic.  Whatever the worker served before,
    whatever its formatter and the cache of the process remember of it and
    whatever the locals of the loop still hold, the same message comes to
    the same outcome: the same reply payload sent, or the same failure. *)
Theorem replies_deterministic (s1 s2 : worker_state) (frames : list bytes) :
  reachable db find_lexer_class registry_tokens css send s1 ->
  reachable db find_lexer_class registry_tokens css send s2 ->
  fst (serve_with db find_lexer_class registry_tokens css send frames s1)
  = fst (serve_with db find_lexer_class registry_tokens css send frames s2).
Proof.
  intros H1 H2.
  destruct (serve_with_ok frames s1 (reachable_memo_ok s1 H1))
    as (s1' & E1 & _).
  destruct (serve_with_ok frames s2 (reachable_memo_ok s2 H2))
    as (s2' & E2 & _).
  now rewrite E1, E2.
Qed.

End Persistent.

(** C8 at the sample environment: a worker fresh from [__init__], which
    has to work everything out, and a worker that has served the same TOML
    request before, after another worker's formatter went through the
    cache, and now finds every opener and every value remembered, give the
    same reply; the second still holds the lexer of its earlier turn. *)
Lemma replies_deterministic_witness :
  let turn :=
    serve_with ascii_db Sample.find_lexer_class Sample.registry_tokens
      HtmlFormatter.standard_css Sample.send_any in
  let served :=
    snd (turn (request "toml" "a = 1")
           (set_parts (snd (cached_parts (0%nat, str "x") []))
                      (new_worker 1))) in
  w_lex served = Some NewTOMLLexer /\
  List.length (w_openers served) = 4%nat /\
  List.length (w_parts served) = 6%nat /\
  returned (fst (turn (request "toml" "a = 1") (new_worker 0))) = true /\
  fst (turn (request "toml" "a = 1") (new_worker 0))
  = fst (turn (request "toml" "a = 1") served).
Proof.
  intros turn served.
  split; [vm_compute; reflexivity|].
  split; [vm_compute; reflexivity|].
  split; [vm_compute; reflexivity|].
  split; [vm_compute; reflexivity|].
  apply (replies_deterministic ascii_db Sample.find_lexer_class
           Sample.registry_tokens HtmlFormatter.standard_css Sample.send_any
           (new_worker 0) served (request "toml" "a = 1")).
  - apply reach_new.
  - apply (reach_served ascii_db Sample.find_lexer_class
             Sample.registry_tokens HtmlFormatter.standard_css
             Sample.send_any _ (request "toml" "a = 1")).
    + apply (reach_other ascii_db Sample.find_lexer_class
               Sample.registry_tokens HtmlFormatter.standard_css
               Sample.send_any (new_worker 1) 0%nat (str "x")).
      * apply reach_new.
      * discriminate.
    + vm_compute. reflexivity.
Defined.

(** C3. A request whose rendering raises a [ValueError] (here the
    ASCII-only lexer on a non-ASCII text) gets the text of line 151 as its
    [rv], but a socket that takes [bytes] only raises on it at line 153: no
    reply goes out, the loop ends, and the next request is not served.  On a
    socket that takes a [str] the same run replies twice. *)
Theorem error_reply_refused_by_socket :
  Sample.render (str "raw") [233]
  = Ok (PText (error_marker ++ exn_str Sample.ascii_only_error)) /\
  Sample.serve Sample.send_bytes_only [bytes_lit "raw"; [xc3; xa9]]
  = Raise (Exn TypeError (str "str objects not allowed")) /\
  Sample.run Sample.send_bytes_only
    [[bytes_lit "raw"; [xc3; xa9]]; request "text" "hello"]
  = ([], Died (Exn TypeError (str "str objects not allowed"))) /\
  Sample.run Sample.send_any
    [[bytes_lit "raw"; [xc3; xa9]]; request "text" "hello"]
  = ([PText (error_marker ++ exn_str Sample.ascii_only_error);
      PBytes (bytes_lit "hello" ++ [x0a])], Receiving).
Proof.
  repeat split; vm_compute; reflexivity.
Qed.

(** ** The two reply types *)

(** C10. With the formatter of line 125, a rendering that succeeds leaves
    [rv] a [bytes] value, the UTF-8 encoding of the markup, and a rendering
    that raises a [ValueError] leaves it the [str] of line 151: the two
    replies handed to [send] never have the same type. *)
Theorem reply_types_differ (db : unicode_db)
    (find_lexer_class : text -> option lexer_class)
    (registry_tokens : lexer_class -> text -> result (list token))
    (css : token_type -> text)
    (lang1 code1 lang2 code2 : text) (lex1 lex2 : lexer)
    (out : bytes) (err : exn) :
  resolve find_lexer_class lang1 = Ok lex1 ->
  highlight db registry_tokens (HtmlFormatter.format css) code1 lex1
  = Ok out ->
  resolve find_lexer_class lang2 = Ok lex2 ->
  highlight db registry_tokens (HtmlFormatter.format css) code2 lex2
  = Raise err ->
  is_ValueError (exn_cls err) = true ->
  exists p1 p2,
    render db find_lexer_class registry_tokens (HtmlFormatter.format css)
      lang1 code1 = Ok p1 /\
    render db find_lexer_class registry_tokens (HtmlFormatter.format css)
      lang2 code2 = Ok p2 /\
    p1 = PBytes out /\
    (exists toks,
       get_tokens db registry_tokens lex1 code1 = Ok toks /\
       utf8_encode (HtmlFormatter.format_unencoded css toks) = Ok out) /\
    p2 = PText (error_marker ++ exn_str err) /\
    type_of p1 = Ty_bytes /\ type_of p2 = Ty_str /\
    type_of p1 <> type_of p2.
Proof.
  intros Hres1 Hhl1 Hres2 Hhl2 Hval.
  exists (PBytes out), (PText (error_marker ++ exn_str err)).
  split; [now apply render_success with (lex := lex1)|].
  split; [now apply render_value_error with (lex := lex2)|].
  split; [reflexivity|].
  split.
  { unfold highlight in Hhl1.
    destruct (get_tokens db registry_tokens lex1 code1) as [toks| |];
      simpl in Hhl1; try discriminate.
    exists toks. split; [reflexivity | exact Hhl1]. }
  repeat split; simpl; discriminate.
Qed.

(** C10 at the sample environment: plain text in, [bytes] out; a text the
    ASCII-only lexer refuses in, [str] out. *)
Lemma reply_types_differ_witness :
  exists p1 p2,
    Sample.render (str "text") (str "x") = Ok p1 /\
    Sample.render (str "raw") [233] = Ok p2 /\
    p1 = PBytes (bytes_lit "x" ++ [x0a]) /\
    (exists toks,
       get_tokens ascii_db Sample.registry_tokens (RegistryLexer TextLexer)
         (str "x") = Ok toks /\
       utf8_encode
         (HtmlFormatter.format_unencoded HtmlFormatter.standard_css toks)
       = Ok (bytes_lit "x" ++ [x0a])) /\
    p2 = PText (error_marker ++ exn_str Sample.ascii_only_error) /\
    type_of p1 = Ty_bytes /\ type_of p2 = Ty_str /\
    type_of p1 <> type_of p2.
Proof.
  apply (reply_types_differ ascii_db Sample.find_lexer_class
           Sample.registry_tokens HtmlFormatter.standard_css
           (str "text") (str "x") (str "raw") [233]
           (RegistryLexer TextLexer) (RegistryLexer (LibLexer "RawTokenLexer"))
           (bytes_lit "x" ++ [x0a]) Sample.ascii_only_error);
    vm_compute; reflexivity.
Defined.

(** ** Start-up *)

Lemma started_spawn (l : list Z) : started (flat_map ServerTask.spawn l) = l.
Proof.
  induction l as [|i l IH]; simpl; [reflexivity|].
  f_equal. exact IH.
Qed.

Lemma started_app (a b : list event) : started (a ++ b) = started a ++ started b.
Proof. unfold started. apply flat_map_app. Qed.

Lemma no_proxy_in_spawn (l : list Z) :
  existsb is_proxy (flat_map ServerTask.spawn l) = false.
Proof. induction l as [|i l IH]; simpl; [reflexivity | exact IH]. Qed.

Lemma length_range (n : Z) : List.length (range n) = Z.to_nat n.
Proof. unfold range. now rewrite length_map, length_seq. Qed.

Lemma in_range_iff (n i : Z) : In i (range n) <-> (0 <= i < n)%Z.
Proof.
  unfold range. rewrite in_map_iff. split.
  - intros (k & <- & Hk). apply in_seq in Hk. lia.
  - intros H. exists (Z.to_nat i). split; [lia|]. apply in_seq. lia.
Qed.

(** C7. Given a size (a count: anything from [-1] up gives a count
    [size + 1] that is not negative), [ServerTask.run] starts [size + 1]
    workers, numbered [0] to [size], each built, made a daemon and started
    as a thread of its own, and all of them before the relay [zmq.proxy] is
    entered. *)
Theorem server_starts_size_plus_one (size : Z) :
  (-1 <= size)%Z ->
  Z.of_nat (List.length (started (ServerTask.run size))) = (size + 1)%Z /\
  started (ServerTask.run size) = range (size + 1) /\
  (forall i, In (Start i) (ServerTask.run size) <-> (0 <= i <= size)%Z) /\
  exists setup,
    ServerTask.run size = setup ++ [Proxy] /\
    started setup = range (size + 1) /\
    existsb is_proxy setup = false /\
    forall i, (0 <= i <= size)%Z ->
      exists before after,
        setup = before ++ [NewWorker i; SetDaemon i; Start i] ++ after.
Proof.
  intros Hsize.
  assert (Hst : started (ServerTask.run size) = range (size + 1)).
  { unfold ServerTask.run. rewrite !started_app, started_spawn. simpl.
    apply app_nil_r. }
  split; [rewrite Hst, length_range; lia|].
  split; [exact Hst|].
  split.
  { intros i. unfold ServerTask.run. rewrite !in_app_iff, in_flat_map. split.
    - intros [H | [(j & Hj & Hin) | H]].
      + simpl in H. destruct H as [H | [H | []]]; discriminate.
      + apply in_range_iff in Hj. simpl in Hin.
        destruct Hin as [H | [H | [H | []]]]; try discriminate.
        inversion H. lia.
      + simpl in H. destruct H as [H | []]. discriminate.
    - intros Hi. right. left. exists i. split.
      + apply in_range_iff. lia.
      + simpl. tauto. }
  exists ([Bind "frontend" "tcp://127.0.0.1:5555";
           Bind "backend" "inproc://backend"]
          ++ flat_map ServerTask.spawn (range (size + 1))).
  split; [unfold ServerTask.run; now rewrite app_assoc|].
  split; [rewrite started_app, started_spawn; reflexivity|].
  split; [rewrite existsb_app, no_proxy_in_spawn; reflexivity|].
  intros i Hi.
  assert (Hin : In i (range (size + 1))) by (apply in_range_iff; lia).
  apply in_split in Hin. destruct Hin as (l1 & l2 & Hl).
  exists ([Bind "frontend" "tcp://127.0.0.1:5555";
           Bind "backend" "inproc://backend"] ++ flat_map ServerTask.spawn l1),
         (flat_map ServerTask.spawn l2).
  rewrite Hl, flat_map_app. simpl. rewrite <- ?app_assoc. reflexivity.
Qed.

(** C7 at the size that [main] passes: five workers. *)
Lemma server_starts_size_plus_one_witness :
  Z.of_nat (List.length (started main)) = 5%Z /\
  started main = [0; 1; 2; 3; 4]%Z.
Proof.
  destruct (server_starts_size_plus_one 4 ltac:(lia)) as (Hn & Hst & _).
  split; [exact Hn | exact Hst].
Defined.

(** ** The TOML scenario *)

(** C9. For [toml] and [key = "value"], the lexer of pig.py yields [key] as
    a [Name], [=] as an [Operator] and the quoted text as a [String], by the
    rules of lines 35, 50 and 33, and the reply wraps each of them in the
    span of its class; this holds for any Unicode database and registry. *)
Theorem toml_scenario (db : unicode_db)
    (find_lexer_class : text -> option lexer_class)
    (registry_tokens : lexer_class -> text -> result (list token)) :
  utf8_decode (bytes_lit "toml") = Ok (str "toml") /\
  utf8_decode (bytes_lit "key = " ++ [x22] ++ bytes_lit "value" ++ [x22])
  = Ok toml_sample /\
  get_tokens db registry_tokens NewTOMLLexer toml_sample
  = Ok [ (Tok.Name, str "key"); (Tok.Text, str " ");
         (Tok.Operator, str "="); (Tok.Text, str " ");
         (Tok.String, [dquote] ++ str "value" ++ [dquote]);
         (Tok.Text, [10]) ] /\
  exists out,
    render db find_lexer_class registry_tokens
      (HtmlFormatter.format HtmlFormatter.standard_css)
      (str "toml") toml_sample = Ok (PBytes out) /\
    utf8_encode
      (span "n" "key" ++ str " " ++ span "o" "=" ++ str " "
       ++ span "s" "&quot;value&quot;" ++ [10]) = Ok out /\
    contains byte_eqb (map byte_of_N (span "n" "key")) out = true /\
    contains byte_eqb (map byte_of_N (span "o" "=")) out = true /\
    contains byte_eqb (map byte_of_N (span "s" "&quot;value&quot;")) out
    = true /\
    has_error_marker (PBytes out) = false.
Proof.
  split; [reflexivity|]. split; [reflexivity|].
  split; [vm_compute; reflexivity|].
  eexists. split; [vm_compute; reflexivity|].
  repeat split; vm_compute; reflexivity.
Qed.

(** ** Plain text through the formatter *)

Lemma split_nl_nonempty (t : text) : HtmlFormatter.split_nl t <> [].
Proof.
  destruct t as [|c t]; simpl; [discriminate|].
  destruct (HtmlFormatter.split_nl t); [discriminate|].
  destruct (c =? 10); discriminate.
Qed.

Lemma split_nl_snoc (t : text) :
  HtmlFormatter.split_nl (t ++ [10]) = HtmlFormatter.split_nl t ++ [[]].
Proof.
  induction t as [|c t IH]; simpl; [reflexivity|].
  rewrite IH.
  destruct (HtmlFormatter.split_nl t) as [|p ps] eqn:E.
  - now destruct (split_nl_nonempty t).
  - simpl. destruct (c =? 10); reflexivity.
Qed.

(** Joining the pieces with newlines gives the text back. *)
Lemma split_nl_lines (t : text) :
  flat_map (fun p => p ++ [10]) (HtmlFormatter.split_nl t) = t ++ [10].
Proof.
  induction t as [|c t IH]; simpl; [reflexivity|].
  destruct (HtmlFormatter.split_nl t) as [|p ps] eqn:E.
  - now destruct (split_nl_nonempty t).
  - destruct (c =? 10) eqn:Ec; simpl in *.
    + apply N.eqb_eq in Ec. subst c. now rewrite IH.
    + now rewrite IH.
Qed.

Lemma escape_app (a b : text) :
  HtmlFormatter.escape (a ++ b)
  = HtmlFormatter.escape a ++ HtmlFormatter.escape b.
Proof. apply flat_map_app. Qed.

Section PlainFormat.
Variable css : token_type -> text.

(** A value without a span, on an empty line: each piece goes out followed
    by a newline, and nothing stays open. *)
Lemma pieces_plain (ps : list text) (out lspan : text) :
  HtmlFormatter.pieces [] (ps ++ [[]]) (HtmlFormatter.FState out lspan [])
  = HtmlFormatter.FState (out ++ flat_map (fun p => p ++ [10]) ps) lspan [].
Proof.
  revert out. induction ps as [|p ps IH]; intros out.
  - simpl. now rewrite app_nil_r.
  - change ((p :: ps) ++ [[]]) with (p :: (ps ++ [[]])).
    assert (Hstep : HtmlFormatter.pieces [] (p :: (ps ++ [[]]))
                      (HtmlFormatter.FState out lspan [])
                    = HtmlFormatter.pieces [] (ps ++ [[]])
                        (HtmlFormatter.full_line [] p
                           (HtmlFormatter.FState out lspan []))).
    { destruct ps; reflexivity. }
    rewrite Hstep.
    assert (Hline : HtmlFormatter.full_line [] p
                      (HtmlFormatter.FState out lspan [])
                    = HtmlFormatter.FState (out ++ p ++ [10]) lspan []).
    { destruct p; reflexivity. }
    rewrite Hline, IH. simpl. now rewrite <- !app_assoc.
Qed.

(** One [Text] token that ends in a newline is written as its escaped
    value. *)
Lemma format_plain_text (v : text) :
  css Tok.Text = [] ->
  HtmlFormatter.format_unencoded css [(Tok.Text, v ++ [10])]
  = HtmlFormatter.escape (v ++ [10]).
Proof.
  intros Hcss.
  unfold HtmlFormatter.format_unencoded, HtmlFormatter.format_token.
  simpl fold_left. simpl fst. simpl snd.
  unfold HtmlFormatter.span_open. rewrite Hcss.
  rewrite escape_app.
  change (HtmlFormatter.escape [10]) with [10].
  rewrite split_nl_snoc, pieces_plain, split_nl_lines.
  reflexivity.
Qed.

End PlainFormat.

(** ** The prepared text ends with a newline *)

Lemma preprocess_ends_nl (t : text) : exists v, preprocess t = v ++ [10].
Proof.
  unfold preprocess.
  set (t1 := strip_nl (normalize_newlines (strip_bom t))).
  destruct (endswith_nl t1) eqn:E.
  - unfold endswith_nl, starts_with_nl in E.
    destruct (rev t1) as [|c r] eqn:Er; [discriminate|].
    apply N.eqb_eq in E. subst c. exists (rev r).
    rewrite <- (rev_involutive t1), Er. reflexivity.
  - now exists t1.
Qed.

(** ** The codec keeps to scalar values *)

Ltac to_props :=
  unfold in_range, is_cont in *;
  repeat match goal with
  | H : _ && _ = true |- _ => apply andb_true_iff in H; destruct H
  | H : (_ <=? _) = true |- _ => apply N.leb_le in H
  | H : (_ <=? _) = false |- _ => apply N.leb_gt in H
  | H : (_ <? _) = true |- _ => apply N.ltb_lt in H
  | H : (_ <? _) = false |- _ => apply N.ltb_ge in H
  | H : (_ =? _) = true |- _ => apply N.eqb_eq in H
  | H : (_ =? _) = false |- _ => apply N.eqb_neq in H
  end.

Ltac scalar_goal :=
  unfold is_scalar;
  match goal with
  | |- (?c <? ?k) || _ = true =>
    destruct (c <? k) eqn:?; [reflexivity|];
    simpl; apply andb_true_iff; split; apply N.leb_le; to_props; lia
  end.

Ltac split_decode H :=
  repeat (match type of H with
          | context [if ?c then _ else _] => destruct c eqn:?
          | context [match ?r with [] => _ | _ :: _ => _ end] =>
            is_var r; destruct r
          | context [utf8_decode ?r] => destruct (utf8_decode r) eqn:?
          end;
          cbv beta iota zeta in H; try discriminate H).

Lemma utf8_decode_scalar_bounded (n : nat) :
  forall (bs : bytes) (t : text),
    (List.length bs <= n)%nat -> utf8_decode bs = Ok t -> all_scalar t.
Proof.
  induction n as [|n IH]; intros bs t Hlen H.
  - destruct bs; [|simpl in Hlen; lia].
    inversion H. constructor.
  - destruct bs as [|b0 r0]; [inversion H; constructor|].
    simpl in H. simpl in Hlen.
    split_decode H;
      inversion H; subst; clear H;
      (constructor;
       [ scalar_goal
       | match goal with
         | Hd : utf8_decode ?r = Ok ?t' |- Forall _ ?t' =>
           apply (IH r t'); [simpl in *; lia | exact Hd]
         end ]).
Qed.

(** What [bytes.decode] returns holds scalar values only. *)
Lemma utf8_decode_scalar (bs : bytes) (t : text) :
  utf8_decode bs = Ok t -> all_scalar t.
Proof. apply (utf8_decode_scalar_bounded (List.length bs)). lia. Qed.

(** Scalar values can be encoded. *)
Lemma utf8_encode_scalar (t : text) :
  all_scalar t -> exists b, utf8_encode t = Ok b.
Proof.
  induction 1 as [|c t Hc _ IH]; simpl.
  - now exists [].
  - rewrite Hc. destruct IH as [b ->]. simpl. eauto.
Qed.

Lemma utf8_encode_cp_nonempty (c : N) : utf8_encode_cp c <> [].
Proof.
  unfold utf8_encode_cp.
  destruct (c <? 128); [discriminate|].
  destruct (c <? 2048); [discriminate|].
  destruct (c <? 65536); discriminate.
Qed.

Lemma utf8_encode_nonempty (c : N) (t : text) (b : bytes) :
  utf8_encode (c :: t) = Ok b -> b <> [].
Proof.
  simpl. destruct (is_scalar c); [|discriminate].
  destruct (utf8_encode t); simpl; try discriminate.
  intros H; inversion H. intros Happ.
  apply app_eq_nil in Happ. now apply (utf8_encode_cp_nonempty c).
Qed.

Lemma all_scalar_strip_bom (t : text) : all_scalar t -> all_scalar (strip_bom t).
Proof.
  intros H. destruct t as [|c t]; simpl; [exact H|].
  destruct (c =? 65279); [now inversion H | exact H].
Qed.

Lemma all_scalar_normalize (t : text) :
  all_scalar t -> all_scalar (normalize_newlines t).
Proof.
  induction 1 as [|c t Hc _ IH]; simpl; [constructor|].
  destruct (c =? 13).
  - destruct (starts_with_nl t); [exact IH|].
    constructor; [reflexivity | exact IH].
  - constructor; assumption.
Qed.

Lemma all_scalar_lstrip (t : text) : all_scalar t -> all_scalar (lstrip_nl t).
Proof.
  induction 1 as [|c t Hc Ht IH]; simpl; [constructor|].
  destruct (c =? 10); [exact IH | now constructor].
Qed.

Lemma all_scalar_strip (t : text) : all_scalar t -> all_scalar (strip_nl t).
Proof.
  intros H. unfold strip_nl, rstrip_nl.
  apply Forall_rev, all_scalar_lstrip, Forall_rev, all_scalar_lstrip, H.
Qed.

Lemma all_scalar_preprocess (t : text) :
  all_scalar t -> all_scalar (preprocess t).
Proof.
  intros H. unfold preprocess.
  assert (H1 : all_scalar (strip_nl (normalize_newlines (strip_bom t)))).
  { now apply all_scalar_strip, all_scalar_normalize, all_scalar_strip_bom. }
  destruct (endswith_nl _); [exact H1|].
  apply Forall_app. split; [exact H1|]. now constructor.
Qed.

Lemma all_scalar_escape (t : text) :
  all_scalar t -> all_scalar (HtmlFormatter.escape t).
Proof.
  induction 1 as [|c t Hc _ IH]; simpl; [constructor|].
  apply Forall_app. split; [|exact IH].
  unfold HtmlFormatter.escape_char.
  repeat match goal with
         | |- context [if ?b then _ else _] =>
           destruct b; [repeat constructor|]
         end.
  now constructor.
Qed.

(** ** Where the marker can show *)

Lemma error_marker_unescaped : unescaped error_marker.
Proof. repeat constructor. Qed.

Lemma startswith_escape (m v : text) :
  unescaped m ->
  startswith N.eqb m (HtmlFormatter.escape v) = startswith N.eqb m v.
Proof.
  intros Hm. revert v. induction Hm as [|a m [Ha _] _ IH]; intros v.
  - reflexivity.
  - destruct v as [|c v]; [reflexivity|].
    change (HtmlFormatter.escape (c :: v))
      with (HtmlFormatter.escape_char c ++ HtmlFormatter.escape v).
    unfold HtmlFormatter.escape_char at 1.
    assert (Hne : forall k, HtmlFormatter.escape_char k <> [k] -> (a =? k) = false).
    { intros k Hk. apply N.eqb_neq. congruence. }
    repeat match goal with
           | |- context [if (c =? ?k) then _ else _] =>
             let E := fresh "E" in
             destruct (c =? k) eqn:E;
             [ apply N.eqb_eq in E; subst c; simpl;
               rewrite (Hne 38), ?(Hne k) by (vm_compute; discriminate);
               reflexivity
             | ]
           end.
    simpl. now rewrite IH.
Qed.

Lemma to_N_byte_of_N (n : N) : n < 256 -> Byte.to_N (byte_of_N n) = n.
Proof.
  intros Hn. unfold byte_of_N.
  destruct (Byte.of_N n) as [x|] eqn:E.
  - now apply Byte.to_of_N.
  - apply Byte.of_N_None_iff in E. lia.
Qed.

(** The first byte of an encoded character is the character itself when it
    is ASCII, and is not ASCII otherwise. *)
Lemma utf8_encode_cp_head (c : N) :
  is_scalar c = true ->
  exists x bs, utf8_encode_cp c = x :: bs /\
    (if c <? 128 then Byte.to_N x = c /\ bs = [] else 128 <= Byte.to_N x).
Proof.
  intros Hc. unfold utf8_encode_cp.
  assert (Hmax : c <= 0x10FFFF).
  { unfold is_scalar in Hc. apply orb_true_iff in Hc.
    destruct Hc as [Hc | Hc]; to_props; lia. }
  destruct (c <? 128) eqn:E1.
  { to_props. eexists _, _. split; [reflexivity|].
    split; [apply to_N_byte_of_N; lia | reflexivity]. }
  destruct (c <? 2048) eqn:E2.
  { to_props. eexists _, _. split; [reflexivity|].
    assert (c / 64 < 32) by (apply N.Div0.div_lt_upper_bound; lia).
    generalize dependent (c / 64). intros q Hq.
    rewrite to_N_byte_of_N; lia. }
  destruct (c <? 65536) eqn:E3.
  { to_props. eexists _, _. split; [reflexivity|].
    assert (c / 4096 < 16) by (apply N.Div0.div_lt_upper_bound; lia).
    generalize dependent (c / 4096). intros q Hq.
    rewrite to_N_byte_of_N; lia. }
  to_props. eexists _, _. split; [reflexivity|].
  assert (c / 262144 < 5) by (apply N.Div0.div_lt_upper_bound; lia).
  generalize dependent (c / 262144). intros q Hq.
  rewrite to_N_byte_of_N; lia.
Qed.

Lemma startswith_encoded (m t : text) (b : bytes) :
  unescaped m -> utf8_encode t = Ok b ->
  startswith byte_eqb (map byte_of_N m) b = startswith N.eqb m t.
Proof.
  intros Hm. revert t b. induction Hm as [|a m [_ Ha] _ IH]; intros t b Hb.
  - reflexivity.
  - destruct t as [|c t]; simpl in Hb.
    { inversion Hb. reflexivity. }
    destruct (is_scalar c) eqn:Hc; [|discriminate].
    destruct (utf8_encode t) as [b'| |] eqn:Ht; simpl in Hb; try discriminate.
    inversion Hb; subst b; clear Hb.
    destruct (utf8_encode_cp_head c Hc) as (x & bs & -> & Hx).
    simpl. unfold byte_eqb at 1. rewrite (to_N_byte_of_N a) by lia.
    destruct (c <? 128) eqn:E.
    + destruct Hx as [-> ->]. simpl. now rewrite (IH t b' Ht).
    + to_props.
      replace (a =? Byte.to_N x) with false by (symmetry; apply N.eqb_neq; lia).
      replace (a =? c) with false by (symmetry; apply N.eqb_neq; lia).
      reflexivity.
Qed.

(** ** Unknown languages *)

(** C6. For a language name that neither the override table nor the
    registry knows, and any decoded source text, the reply is what
    the plain-text grammar produces on that text: nothing is raised, the
    reply is the UTF-8 encoding of the escaped, newline-terminated text, so
    it is never empty, and it begins with the error marker exactly when the
    prepared source text itself does. *)
Theorem unknown_language_plain_text (db : unicode_db)
    (find_lexer_class : text -> option lexer_class)
    (registry_tokens : lexer_class -> text -> result (list token))
    (css : token_type -> text)
    (f_code : bytes) (lang code : text) :
  find_lexer_class (str "text") = Some TextLexer ->
  (forall c, registry_tokens TextLexer c = Ok (text_lexer_tokens c)) ->
  css Tok.Text = [] ->
  utf8_decode f_code = Ok code ->
  unknown_language find_lexer_class lang ->
  exists out,
    render db find_lexer_class registry_tokens (HtmlFormatter.format css)
      lang code = Ok (PBytes out) /\
    plain_text_render db registry_tokens (HtmlFormatter.format css) code
    = Ok out /\
    utf8_encode (HtmlFormatter.escape (preprocess code)) = Ok out /\
    payload_nonempty (PBytes out) = true /\
    has_error_marker (PBytes out)
    = startswith N.eqb error_marker (preprocess code).
Proof.
  intros Htext Htoks Hcss Hdec Hunk.
  pose proof (resolve_unknown find_lexer_class TextLexer lang Htext Hunk)
    as Hres.
  destruct (preprocess_ends_nl code) as [v Hv].
  assert (Hfmt : HtmlFormatter.format_unencoded css (text_lexer_tokens code)
                 = HtmlFormatter.escape (preprocess code)).
  { unfold text_lexer_tokens. rewrite Hv. now apply format_plain_text. }
  assert (Hsc : all_scalar (HtmlFormatter.escape (preprocess code))).
  { apply all_scalar_escape, all_scalar_preprocess.
    exact (utf8_decode_scalar f_code code Hdec). }
  destruct (utf8_encode_scalar _ Hsc) as [out Hout].
  assert (Hhl : highlight db registry_tokens (HtmlFormatter.format css) code
                  (RegistryLexer TextLexer) = Ok out).
  { unfold highlight. simpl. rewrite Htoks. simpl.
    unfold HtmlFormatter.format. now rewrite Hfmt. }
  exists out.
  split; [exact (render_success _ _ _ _ _ _ _ _ Hres Hhl)|].
  split; [exact Hhl|].
  split; [exact Hout|].
  split.
  - rewrite Hv, escape_app in Hout.
    destruct (HtmlFormatter.escape v ++ HtmlFormatter.escape [10])
      as [|c t] eqn:E.
    { apply app_eq_nil in E. destruct E as [_ E]. discriminate. }
    apply utf8_encode_nonempty in Hout.
    destruct out; [congruence | reflexivity].
  - unfold has_error_marker, error_marker_bytes.
    rewrite (startswith_encoded _ _ _ error_marker_unescaped Hout).
    apply startswith_escape, error_marker_unescaped.
Qed.

(** C6 at the sample environment and the request of the scenario: the
    reply to [hello] in an unknown language is [hello] and a newline, with
    no marker. *)
Lemma unknown_language_plain_text_witness :
  exists out,
    render ascii_db Sample.find_lexer_class Sample.registry_tokens
      (HtmlFormatter.format HtmlFormatter.standard_css)
      (str "not-a-real-language") (str "hello") = Ok (PBytes out) /\
    plain_text_render ascii_db Sample.registry_tokens
      (HtmlFormatter.format HtmlFormatter.standard_css) (str "hello")
    = Ok out /\
    utf8_encode (HtmlFormatter.escape (preprocess (str "hello"))) = Ok out /\
    payload_nonempty (PBytes out) = true /\
    has_error_marker (PBytes out)
    = startswith N.eqb error_marker (preprocess (str "hello")).
Proof.
  apply (unknown_language_plain_text ascii_db Sample.find_lexer_class
           Sample.registry_tokens HtmlFormatter.standard_css
           (bytes_lit "hello") (str "not-a-real-language") (str "hello")).
  - reflexivity.
  - intros c. reflexivity.
  - reflexivity.
  - reflexivity.
  - split; [discriminate | split; [discriminate | reflexivity]].
Defined.

(** C6 does not hold with "no error marker" for every source text: a text
    that itself begins with the words of the marker is rendered as plain
    text in an unknown language, and the reply begins with the marker. *)
Lemma unknown_language_marker_counterexample :
  ~ unknown_language_claim ascii_db Sample.find_lexer_class
      Sample.registry_tokens Sample.formatter.
Proof.
  intros Hclaim.
  destruct (Hclaim (str "not-a-real-language") (str "Pygments Error: boom"))
    as (out & Hrender & _ & _ & Hmarker).
  { split; [discriminate | split; [discriminate | reflexivity]]. }
  vm_compute in Hrender. inversion Hrender; subst out.
  vm_compute in Hmarker. discriminate.
Qed.

(** ** The lexers of pig.py always return

    Every pattern of the two lexers consumes at least one character, so the
    engine's loop reaches the end of any text within the fuel it is given:
    [get_tokens] never hangs on them. *)

Section Progress.
Variable db : unicode_db.

(** A match ends no earlier than it starts, and later when the pattern is
    consuming. *)
Lemma rmatch_consumes (r : regex) :
  forall (A : Type) (s : mstate) (k : mstate -> option A) (x : A),
    rmatch db r s k = Some x ->
    exists s1, k s1 = Some x /\
      (List.length (m_rest s1) + step_of r <= List.length (m_rest s))%nat.
Proof.
  unfold step_of.
  induction r as [| c | | neg items | | | r1 IH1 r2 IH2 | r1 IH1 r2 IH2
                  | greedy r1 IH1 | i r1 IH1]; intros A s k x H; simpl in *.
  - exists s. split; [exact H | lia].
  - unfold one_char in H. destruct (m_rest s) as [|y t] eqn:E; [discriminate|].
    destruct (y =? c); [|discriminate].
    eexists. split; [exact H | simpl; lia].
  - unfold one_char in H. destruct (m_rest s) as [|y t] eqn:E; [discriminate|].
    destruct (negb (y =? 10)); [|discriminate].
    eexists. split; [exact H | simpl; lia].
  - unfold one_char in H. destruct (m_rest s) as [|y t] eqn:E; [discriminate|].
    destruct (xorb neg (existsb (item_matches db y) items)); [|discriminate].
    eexists. split; [exact H | simpl; lia].
  - exists s. split; [|lia].
    destruct (m_rest s) as [|y t]; [exact H|].
    destruct (y =? 10); [exact H | discriminate].
  - exists s. split; [|lia].
    destruct (xorb (word_before db s) (word_after db s));
      [exact H | discriminate].
  - apply IH1 in H. destruct H as (s1 & H & Hlen1).
    apply IH2 in H. destruct H as (s2 & H & Hlen2).
    exists s2. split; [exact H|].
    destruct (consuming r1), (consuming r2); simpl in *; lia.
  - unfold or_else in H.
    destruct (rmatch db r1 s k) as [y|] eqn:E1.
    + inversion H; subst y. apply IH1 in E1. destruct E1 as (s1 & Hk & Hlen).
      exists s1. split; [exact Hk|].
      destruct (consuming r1), (consuming r2); simpl in *; lia.
    + apply IH2 in H. destruct H as (s1 & Hk & Hlen).
      exists s1. split; [exact Hk|].
      destruct (consuming r1), (consuming r2); simpl in *; lia.
  - revert H. generalize (List.length (m_rest s)) at 1. intros n.
    revert s. induction n as [|n IHn]; intros s H.
    + exists s. split; [exact H | lia].
    + simpl in H. unfold or_else in H.
      assert (Hagain : forall (s1 : mstate) (v : option A),
                (if (List.length (m_rest s1) <? List.length (m_rest s))%nat
                 then v else None) = Some x ->
                v = Some x).
      { intros s1 v Hv.
        destruct (List.length (m_rest s1) <? List.length (m_rest s))%nat;
          [exact Hv | discriminate]. }
      destruct greedy.
      * match type of H with
        | match ?a with _ => _ end = _ => destruct a as [y|] eqn:E
        end.
        -- inversion H; subst y. apply IH1 in E.
           destruct E as (s1 & Hy & Hlen1).
           apply Hagain, IHn in Hy. destruct Hy as (s2 & Hk & Hlen2).
           exists s2. split; [exact Hk | lia].
        -- exists s. split; [exact H | lia].
      * destruct (k s) as [y|] eqn:E.
        -- inversion H; subst y. exists s. split; [exact E | lia].
        -- apply IH1 in H. destruct H as (s1 & Hy & Hlen1).
           apply Hagain, IHn in Hy. destruct Hy as (s2 & Hk & Hlen2).
           exists s2. split; [exact Hk | lia].
  - apply IH1 in H. destruct H as (s1 & H & Hlen).
    eexists. split; [exact H | simpl; exact Hlen].
Qed.

Lemma first_match_consumes (rs : list rule) (prev : option N) (rest : text)
    (rl : rule) (s1 : mstate) :
  forallb (fun rl => consuming (r_pattern rl)) rs = true ->
  first_match db rs prev rest = Some (rl, s1) ->
  (List.length (m_rest s1) < List.length rest)%nat.
Proof.
  induction rs as [|r0 rs IH]; simpl; intros Hall H; [discriminate|].
  apply andb_true_iff in Hall. destruct Hall as [H0 Hall].
  destruct (re_match db (r_pattern r0) prev rest) as [s0|] eqn:E.
  - inversion H; subst. unfold re_match in E.
    apply rmatch_consumes in E. destruct E as (s2 & Hs2 & Hlen).
    inversion Hs2; subst s2. unfold step_of in Hlen. rewrite H0 in Hlen.
    simpl in Hlen. lia.
  - now apply IH.
Qed.

Lemma state_rules_consuming (def : lexer_def) (st : string) :
  all_consuming def = true ->
  forallb (fun rl => consuming (r_pattern rl)) (state_rules def st) = true.
Proof.
  induction def as [|[name rs] def IH]; simpl; intros H; [reflexivity|].
  apply andb_true_iff in H. destruct H as [Hrs Hdef].
  destruct (String.eqb name st); [exact Hrs | now apply IH].
Qed.

(** With more fuel than characters left, the loop ends. *)
Lemma lex_loop_returns (def : lexer_def) :
  all_consuming def = true ->
  forall (fuel : nat) (stack : list string) (prev : option N) (rest : text),
    (List.length rest < fuel)%nat ->
    exists toks, lex_loop db fuel def stack prev rest = Some toks.
Proof.
  intros Hdef. induction fuel as [|fuel IH]; intros stack prev rest Hlen;
    [lia|].
  simpl.
  destruct (first_match db (state_rules def (top stack)) prev rest)
    as [[rl s1]|] eqn:E.
  - apply first_match_consumes in E; [|now apply state_rules_consuming].
    destruct (IH (next_stack (r_next rl) stack) (m_prev s1) (m_rest s1))
      as [toks ->]; [lia|].
    simpl. eauto.
  - destruct rest as [|x t]; [eauto|].
    simpl in Hlen.
    destruct (x =? 10).
    + destruct (IH ["root"%string] (Some x) t) as [toks ->]; [lia|].
      simpl. eauto.
    + destruct (IH stack (Some x) t) as [toks ->]; [lia|].
      simpl. eauto.
Qed.

Lemma get_tokens_unprocessed_returns (def : lexer_def) (t : text) :
  all_consuming def = true ->
  exists toks, get_tokens_unprocessed db def t = Some toks.
Proof.
  intros Hdef. unfold get_tokens_unprocessed.
  apply lex_loop_returns; [exact Hdef | lia].
Qed.

(** Tokenizing with [TOMLLexer] or [GDBLexer] returns on every text. *)
Lemma custom_lexers_return
    (registry_tokens : lexer_class -> text -> result (list token))
    (code : text) :
  (exists toks, get_tokens db registry_tokens NewTOMLLexer code = Ok toks) /\
  (exists toks, get_tokens db registry_tokens NewGDBLexer code = Ok toks).
Proof.
  split; simpl; unfold regex_tokens.
  - destruct (get_tokens_unprocessed_returns TOMLLexer.tokens
                (preprocess code) eq_refl) as [toks ->]. eauto.
  - destruct (get_tokens_unprocessed_returns GDBLexer.tokens
                (preprocess code) eq_refl) as [toks ->]. eauto.
Qed.

End Progress.

(** No repetition in the patterns of pig.py has a body that could match the
    empty string. *)
Lemma pig_patterns_guarded :
  forallb (fun st => forallb (fun rl => guarded (r_pattern rl)) (snd st))
          (TOMLLexer.tokens ++ GDBLexer.tokens) = true.
Proof. reflexivity. Qed.

(** ** What a match spans *)

Section Spans.
Variable db : unicode_db.

(** The continuation of a match is entered on a suffix of the text, and with
    the groups untouched when the pattern has none. *)
Lemma rmatch_span (r : regex) :
  forall (A : Type) (s : mstate) (k : mstate -> option A) (x : A),
    rmatch db r s k = Some x ->
    exists s1, k s1 = Some x /\
      (exists pre, m_rest s = pre ++ m_rest s1) /\
      (nogroups r = true -> m_groups s1 = m_groups s).
Proof.
  induction r as [| c | | neg items | | | r1 IH1 r2 IH2 | r1 IH1 r2 IH2
                  | greedy r1 IH1 | i r1 IH1]; intros A s k x H; simpl in *.
  - exists s. split; [exact H|]. split; [now exists [] | reflexivity].
  - unfold one_char in H. destruct (m_rest s) as [|y t] eqn:E; [discriminate|].
    destruct (y =? c); [|discriminate].
    eexists. split; [exact H|]. split; [now exists [y] | reflexivity].
  - unfold one_char in H. destruct (m_rest s) as [|y t] eqn:E; [discriminate|].
    destruct (negb (y =? 10)); [|discriminate].
    eexists. split; [exact H|]. split; [now exists [y] | reflexivity].
  - unfold one_char in H. destruct (m_rest s) as [|y t] eqn:E; [discriminate|].
    destruct (xorb neg (existsb (item_matches db y) items)); [|discriminate].
    eexists. split; [exact H|]. split; [now exists [y] | reflexivity].
  - exists s. split; [|split; [now exists [] | reflexivity]].
    destruct (m_rest s) as [|y t]; [exact H|].
    destruct (y =? 10); [exact H | discriminate].
  - exists s. split; [|split; [now exists [] | reflexivity]].
    destruct (xorb (word_before db s) (word_after db s));
      [exact H | discriminate].
  - apply IH1 in H. destruct H as (s1 & H & [p1 Hp1] & Hg1).
    apply IH2 in H. destruct H as (s2 & H & [p2 Hp2] & Hg2).
    exists s2. split; [exact H|]. split.
    + exists (p1 ++ p2). now rewrite Hp1, Hp2, app_assoc.
    + intros Hn. apply andb_true_iff in Hn. destruct Hn as [Hn1 Hn2].
      now rewrite (Hg2 Hn2), (Hg1 Hn1).
  - unfold or_else in H.
    destruct (rmatch db r1 s k) as [y|] eqn:E1.
    + inversion H; subst y. apply IH1 in E1.
      destruct E1 as (s1 & Hk & Hp & Hg).
      exists s1. split; [exact Hk|]. split; [exact Hp|].
      intros Hn. apply andb_true_iff in Hn. now apply Hg.
    + apply IH2 in H. destruct H as (s1 & Hk & Hp & Hg).
      exists s1. split; [exact Hk|]. split; [exact Hp|].
      intros Hn. apply andb_true_iff in Hn. now apply Hg.
  - revert H. generalize (List.length (m_rest s)) at 1. intros n.
    revert s. induction n as [|n IHn]; intros s H.
    + exists s. split; [exact H|]. split; [now exists [] | reflexivity].
    + simpl in H. unfold or_else in H.
      assert (Hagain : forall (s1 : mstate) (v : option A),
                (if (List.length (m_rest s1) <? List.length (m_rest s))%nat
                 then v else None) = Some x ->
                v = Some x).
      { intros s1 v Hv.
        destruct (List.length (m_rest s1) <? List.length (m_rest s))%nat;
          [exact Hv | discriminate]. }
      assert (Hround : forall s1,
                (exists pre, m_rest s = pre ++ m_rest s1) ->
                (nogroups r1 = true -> m_groups s1 = m_groups s) ->
                (exists s2, k s2 = Some x /\
                   (exists pre, m_rest s1 = pre ++ m_rest s2) /\
                   (nogroups r1 = true -> m_groups s2 = m_groups s1)) ->
                exists s2, k s2 = Some x /\
                  (exists pre, m_rest s = pre ++ m_rest s2) /\
                  (nogroups r1 = true -> m_groups s2 = m_groups s)).
      { intros s1 [p1 Hp1] Hg1 (s2 & Hk & [p2 Hp2] & Hg2).
        exists s2. split; [exact Hk|]. split.
        - exists (p1 ++ p2). now rewrite Hp1, Hp2, app_assoc.
        - intros Hn. now rewrite (Hg2 Hn), (Hg1 Hn). }
      destruct greedy.
      * match type of H with
        | match ?a with _ => _ end = _ => destruct a as [y|] eqn:E
        end.
        -- inversion H; subst y. apply IH1 in E.
           destruct E as (s1 & Hy & Hp1 & Hg1).
           apply Hagain, IHn in Hy. exact (Hround s1 Hp1 Hg1 Hy).
        -- exists s. split; [exact H|]. split; [now exists [] | reflexivity].
      * destruct (k s) as [y|] eqn:E.
        -- inversion H; subst y. exists s.
           split; [exact E|]. split; [now exists [] | reflexivity].
        -- apply IH1 in H. destruct H as (s1 & Hy & Hp1 & Hg1).
           apply Hagain, IHn in Hy. exact (Hround s1 Hp1 Hg1 Hy).
  - apply IH1 in H. destruct H as (s1 & H & Hp & _).
    eexists. split; [exact H|]. split; [exact Hp | discriminate].
Qed.

Lemma consumed_prefix (s s1 : mstate) (pre : text) :
  m_rest s = pre ++ m_rest s1 -> consumed s s1 = pre.
Proof.
  intros H. unfold consumed. rewrite H, length_app.
  replace (List.length pre + List.length (m_rest s1)
           - List.length (m_rest s1))%nat with (List.length pre) by lia.
  rewrite firstn_app, firstn_all, Nat.sub_diag. simpl. apply app_nil_r.
Qed.

End Spans.

(** ** The tokens spell the text *)

Section Lossless.
Variable db : unicode_db.

Lemma group_skip (i : nat) (l g : list (nat * text)) :
  Forall (fun p => fst p <> i) l -> group i (l ++ g) = group i g.
Proof.
  induction 1 as [|[j v] l Hj _ IH]; simpl; [reflexivity|].
  simpl in Hj. destruct (Nat.eqb i j) eqn:E; [|exact IH].
  apply Nat.eqb_eq in E. congruence.
Qed.

Lemma group_list_cons (i : nat) (v : text) (vs : list text) :
  group_list i (v :: vs) = group_list (S i) vs ++ [(i, v)].
Proof. reflexivity. Qed.

Lemma group_list_keys (i j : nat) (vs : list text) :
  (j < i)%nat -> Forall (fun p => fst p <> j) (group_list i vs).
Proof.
  unfold group_list. intros Hlt. apply Forall_rev.
  revert i Hlt. induction vs as [|v vs IH]; intros i Hlt; simpl;
    [constructor|].
  constructor; [simpl; lia | apply IH; lia].
Qed.

(** [bygroups] over the groups of a sequence of groups yields tokens that
    spell the groups in order. *)
Lemma bygroups_spelled (vs : list text) :
  forall (i : nat) (ts : list token_type) (g0 : list (nat * text)),
    List.length ts = List.length vs ->
    spelled (bygroups i ts (group_list i vs ++ g0)) = List.concat vs.
Proof.
  induction vs as [|v vs IH]; intros i ts g0 Hlen.
  - destruct ts; [reflexivity | discriminate].
  - destruct ts as [|t ts]; [discriminate|]. simpl in Hlen.
    rewrite group_list_cons, <- app_assoc. simpl bygroups.
    rewrite (group_skip i _ _ (group_list_keys (S i) i vs ltac:(lia))).
    simpl group. rewrite Nat.eqb_refl.
    specialize (IH (S i) ts ((i, v) :: g0) ltac:(lia)).
    simpl app in IH |- *.
    destruct v as [|c v]; unfold spelled in *; simpl; now rewrite IH.
Qed.

(** A match of a sequence of groups records one value per group, and the
    values in order are what was matched. *)
Lemma seq_groups_span (r : regex) :
  forall (i : nat) (bodies : list regex) (A : Type) (s : mstate)
         (k : mstate -> option A) (x : A),
    seq_groups i r = Some bodies ->
    rmatch db r s k = Some x ->
    exists s1 vs, k s1 = Some x /\
      List.length vs = List.length bodies /\
      m_groups s1 = group_list i vs ++ m_groups s /\
      m_rest s = List.concat vs ++ m_rest s1.
Proof.
  induction r as [| | | | | | r1 _ r2 IH2 | | | j b _];
    intros i bodies A s k x Hsg H; try discriminate.
  - destruct r1 as [| | | | | | | | | j b]; try discriminate.
    simpl in Hsg.
    destruct (Nat.eqb j i && nogroups b) eqn:E; [|discriminate].
    apply andb_true_iff in E. destruct E as [Ej Hb].
    apply Nat.eqb_eq in Ej. subst j.
    destruct (seq_groups (S i) r2) as [bodies'|] eqn:E2; [|discriminate].
    inversion Hsg; subst bodies; clear Hsg.
    simpl in H. apply rmatch_span in H.
    destruct H as (s1 & H & [pre Hpre] & Hg). specialize (Hg Hb).
    apply (IH2 (S i) bodies' A _ k x E2) in H.
    destruct H as (s2 & vs & Hk & Hlen & Hgs & Hrest).
    simpl in Hgs, Hrest.
    exists s2, (pre :: vs). split; [exact Hk|].
    split; [simpl; lia|]. split.
    + rewrite Hgs, group_list_cons, <- app_assoc, Hg.
      now rewrite (consumed_prefix s s1 pre Hpre).
    + simpl. now rewrite Hpre, Hrest, app_assoc.
  - simpl in Hsg.
    destruct (Nat.eqb j i && nogroups b) eqn:E; [|discriminate].
    apply andb_true_iff in E. destruct E as [Ej Hb].
    apply Nat.eqb_eq in Ej. subst j.
    inversion Hsg; subst bodies; clear Hsg.
    simpl in H. apply rmatch_span in H.
    destruct H as (s1 & H & [pre Hpre] & Hg). specialize (Hg Hb).
    eexists. exists [pre]. split; [exact H|].
    split; [reflexivity|]. simpl. split.
    + now rewrite Hg, (consumed_prefix s s1 pre Hpre).
    + now rewrite app_nil_r.
Qed.

(** What a covering rule yields spells what its pattern matched. *)
Lemma run_action_spelled (rl : rule) (prev : option N) (rest : text)
    (s1 : mstate) :
  covers rl = true ->
  re_match db (r_pattern rl) prev rest = Some s1 ->
  rest = spelled (run_action (r_action rl) rest s1) ++ m_rest s1.
Proof.
  unfold covers, re_match, run_action. intros Hc H.
  destruct (r_action rl) as [t | ts].
  - apply rmatch_span in H. destruct H as (s2 & Hs2 & [pre Hpre] & _).
    inversion Hs2; subst s2. simpl in Hpre.
    unfold spelled. simpl. rewrite app_nil_r.
    rewrite Hpre at 2 3. rewrite length_app.
    replace (List.length pre + List.length (m_rest s1)
             - List.length (m_rest s1))%nat with (List.length pre) by lia.
    rewrite firstn_app, firstn_all, Nat.sub_diag. simpl.
    now rewrite app_nil_r.
  - destruct (seq_groups 1 (r_pattern rl)) as [bodies|] eqn:E;
      [|discriminate].
    apply Nat.eqb_eq in Hc.
    apply (seq_groups_span _ 1 bodies _ _ _ _ E) in H.
    destruct H as (s2 & vs & Hs2 & Hlen & Hgs & Hrest).
    inversion Hs2; subst s2. simpl in Hgs, Hrest.
    rewrite Hgs, bygroups_spelled by lia. exact Hrest.
Qed.

Lemma first_match_in (rs : list rule) (prev : option N) (rest : text)
    (rl : rule) (s1 : mstate) :
  first_match db rs prev rest = Some (rl, s1) ->
  In rl rs /\ re_match db (r_pattern rl) prev rest = Some s1.
Proof.
  induction rs as [|r0 rs IH]; simpl; [discriminate|].
  destruct (re_match db (r_pattern r0) prev rest) as [s0|] eqn:E.
  - intros H; inversion H; subst. split; [now left | exact E].
  - intros H. destruct (IH H) as [Hin Hm]. split; [now right | exact Hm].
Qed.

Lemma state_rules_cover (def : lexer_def) (st : string) :
  all_cover def = true -> forallb covers (state_rules def st) = true.
Proof.
  induction def as [|[name rs] def IH]; simpl; intros H; [reflexivity|].
  apply andb_true_iff in H. destruct H as [Hrs Hdef].
  destruct (String.eqb name st); [exact Hrs | now apply IH].
Qed.

Lemma spelled_app (a b : list token) : spelled (a ++ b) = spelled a ++ spelled b.
Proof. unfold spelled. now rewrite map_app, concat_app. Qed.

Lemma lex_loop_spelled (def : lexer_def) :
  all_cover def = true ->
  forall (fuel : nat) (stack : list string) (prev : option N) (rest : text)
         (toks : list token),
    lex_loop db fuel def stack prev rest = Some toks ->
    spelled toks = rest.
Proof.
  intros Hdef. induction fuel as [|fuel IH]; intros stack prev rest toks H;
    [discriminate|].
  simpl in H.
  destruct (first_match db (state_rules def (top stack)) prev rest)
    as [[rl s1]|] eqn:E.
  - apply first_match_in in E. destruct E as [Hin Hm].
    assert (Hc : covers rl = true).
    { pose proof (state_rules_cover def (top stack) Hdef) as Hall.
      rewrite forallb_forall in Hall. now apply Hall. }
    destruct (lex_loop db fuel def (next_stack (r_next rl) stack)
                (m_prev s1) (m_rest s1)) as [toks'|] eqn:E'; [|discriminate].
    inversion H; subst toks. rewrite spelled_app, (IH _ _ _ _ E').
    symmetry. now apply run_action_spelled with (prev := prev).
  - destruct rest as [|x t]; [inversion H; reflexivity|].
    destruct (x =? 10).
    + destruct (lex_loop db fuel def ["root"%string] (Some x) t)
        as [toks'|] eqn:E'; [|discriminate].
      inversion H; subst toks. unfold spelled in *. simpl.
      now rewrite (IH _ _ _ _ E').
    + destruct (lex_loop db fuel def stack (Some x) t)
        as [toks'|] eqn:E'; [|discriminate].
      inversion H; subst toks. unfold spelled in *. simpl.
      now rewrite (IH _ _ _ _ E').
Qed.

(** X1. Tokenizing with [TOMLLexer] or [GDBLexer] always returns, and loses
    nothing: on every source text the lexer yields a token stream whose
    values, put end to end, are the prepared text. *)
Theorem custom_lexers_lossless
    (registry_tokens : lexer_class -> text -> result (list token))
    (code : text) :
  (exists toks,
     get_tokens db registry_tokens NewTOMLLexer code = Ok toks /\
     spelled toks = preprocess code) /\
  (exists toks,
     get_tokens db registry_tokens NewGDBLexer code = Ok toks /\
     spelled toks = preprocess code).
Proof.
  split; simpl; unfold regex_tokens.
  - destruct (get_tokens_unprocessed_returns db TOMLLexer.tokens
                (preprocess code) eq_refl) as [toks E].
    rewrite E. exists toks. split; [reflexivity|].
    exact (lex_loop_spelled TOMLLexer.tokens eq_refl _ _ _ _ _ E).
  - destruct (get_tokens_unprocessed_returns db GDBLexer.tokens
                (preprocess code) eq_refl) as [toks E].
    rewrite E. exists toks. split; [reflexivity|].
    exact (lex_loop_spelled GDBLexer.tokens eq_refl _ _ _ _ _ E).
Qed.

End Lossless.

(** ** What the token streams hold *)

Section Streams.
Variable db : unicode_db.

(** An invariant of the state stack and a property of single tokens carry
    over to every stream the loop yields. *)
Lemma lex_loop_forall (def : lexer_def) (P : token -> Prop)
    (Inv : list string -> Prop) :
  (forall stack prev rest rl s1,
      Inv stack ->
      first_match db (state_rules def (top stack)) prev rest = Some (rl, s1) ->
      Forall P (run_action (r_action rl) rest s1) /\
      Inv (next_stack (r_next rl) stack)) ->
  (forall stack prev x t,
      Inv stack ->
      first_match db (state_rules def (top stack)) prev (x :: t) = None ->
      if x =? 10 then P (Tok.Whitespace, [x]) else P (Tok.Error, [x])) ->
  Inv ["root"%string] ->
  forall (fuel : nat) (stack : list string) (prev : option N) (rest : text)
         (toks : list token),
    Inv stack ->
    lex_loop db fuel def stack prev rest = Some toks ->
    Forall P toks.
Proof.
  intros Hrule Hfall Hroot.
  induction fuel as [|fuel IH]; intros stack prev rest toks Hinv H;
    [discriminate|].
  simpl in H.
  destruct (first_match db (state_rules def (top stack)) prev rest)
    as [[rl s1]|] eqn:E.
  - destruct (Hrule _ _ _ _ _ Hinv E) as [Htoks Hinv'].
    destruct (lex_loop db fuel def (next_stack (r_next rl) stack)
                (m_prev s1) (m_rest s1)) as [toks'|] eqn:E'; [|discriminate].
    inversion H; subst toks. apply Forall_app. split; [exact Htoks|].
    exact (IH _ _ _ _ Hinv' E').
  - destruct rest as [|x t]; [inversion H; constructor|].
    pose proof (Hfall _ _ _ _ Hinv E) as Hx.
    destruct (x =? 10).
    + destruct (lex_loop db fuel def ["root"%string] (Some x) t)
        as [toks'|] eqn:E'; [|discriminate].
      inversion H; subst toks. constructor; [exact Hx|].
      exact (IH _ _ _ _ Hroot E').
    + destruct (lex_loop db fuel def stack (Some x) t)
        as [toks'|] eqn:E'; [|discriminate].
      inversion H; subst toks. constructor; [exact Hx|].
      exact (IH _ _ _ _ Hinv E').
Qed.

Lemma bygroups_nonempty (ts : list token_type) :
  forall (i : nat) (gs : list (nat * text)),
    Forall (fun tk => snd tk <> []) (bygroups i ts gs).
Proof.
  induction ts as [|t ts IH]; intros i gs; simpl; [constructor|].
  destruct (group i gs) as [[|c v]|]; try apply IH.
  constructor; [discriminate | apply IH].
Qed.

Lemma bygroups_types (ts : list token_type) :
  forall (i : nat) (gs : list (nat * text)),
    Forall (fun tk => In (fst tk) ts) (bygroups i ts gs).
Proof.
  induction ts as [|t ts IH]; intros i gs; simpl; [constructor|].
  assert (Hrest : Forall (fun tk => In (fst tk) (t :: ts))
                    (bygroups (S i) ts gs)).
  { eapply Forall_impl; [|apply IH]. intros tk Hin. now right. }
  destruct (group i gs) as [[|c v]|]; try exact Hrest.
  constructor; [now left | exact Hrest].
Qed.

Lemma run_action_types (rl : rule) (rest : text) (s1 : mstate) :
  Forall (fun tk => In (fst tk) (rule_types rl))
         (run_action (r_action rl) rest s1).
Proof.
  unfold run_action, rule_types. destruct (r_action rl) as [t | ts].
  - constructor; [now left | constructor].
  - apply bygroups_types.
Qed.

Lemma state_rules_in (def : lexer_def) (st : string) (rl : rule) :
  In rl (state_rules def st) ->
  exists rs, In (st, rs) def /\ In rl rs.
Proof.
  induction def as [|[name rs] def IH]; simpl; [intros []|].
  destruct (String.eqb name st) eqn:E.
  - apply String.eqb_eq in E. subst name. intros Hin.
    exists rs. split; [now left | exact Hin].
  - intros Hin. destruct (IH Hin) as (rs' & Hdef & Hrl).
    exists rs'. split; [now right | exact Hrl].
Qed.

Lemma rule_types_in_def (def : lexer_def) (st : string) (rl : rule)
    (t : token_type) :
  In rl (state_rules def st) -> In t (rule_types rl) -> In t (def_types def).
Proof.
  intros Hrl Ht. apply state_rules_in in Hrl.
  destruct Hrl as (rs & Hdef & Hrl).
  unfold def_types. apply in_flat_map. exists (st, rs).
  split; [exact Hdef|]. apply in_flat_map. now exists rl.
Qed.

(** X2. Neither lexer of pig.py ever yields a token with an empty value:
    every token of every stream carries at least one character. *)
Theorem custom_lexers_no_empty_token
    (registry_tokens : lexer_class -> text -> result (list token))
    (code : text) (lex : lexer) (toks : list token) :
  lex = NewTOMLLexer \/ lex = NewGDBLexer ->
  get_tokens db registry_tokens lex code = Ok toks ->
  Forall (fun tk => snd tk <> []) toks.
Proof.
  intros Hlex H.
  assert (Hgen : forall def t,
             all_consuming def = true ->
             get_tokens_unprocessed db def t = Some toks ->
             Forall (fun tk => snd tk <> []) toks).
  { intros def t Hdef Htoks. unfold get_tokens_unprocessed in Htoks.
    apply (lex_loop_forall def (fun tk => snd tk <> []) (fun _ => True))
      with (fuel := S (List.length t)) (stack := ["root"%string])
           (prev := None) (rest := t); try exact I; try exact Htoks.
    - intros stack prev rest rl s1 _ E. split; [|exact I].
      pose proof (first_match_consumes db _ _ _ _ _
                    (state_rules_consuming def (top stack) Hdef) E) as Hlt.
      unfold run_action. destruct (r_action rl) as [ty | ts].
      + constructor; [|constructor]. simpl.
        destruct (List.length rest - List.length (m_rest s1))%nat
          as [|n] eqn:En; [lia|].
        destruct rest as [|c rest]; [simpl in Hlt; lia | discriminate].
      + apply bygroups_nonempty.
    - intros stack prev x t' _ _. destruct (x =? 10); discriminate. }
  destruct Hlex as [-> | ->]; simpl in H; unfold regex_tokens in H.
  - destruct (get_tokens_unprocessed db TOMLLexer.tokens (preprocess code))
      as [toks'|] eqn:E; [|discriminate].
    inversion H; subst toks'. exact (Hgen TOMLLexer.tokens _ eq_refl E).
  - destruct (get_tokens_unprocessed db GDBLexer.tokens (preprocess code))
      as [toks'|] eqn:E; [|discriminate].
    inversion H; subst toks'. exact (Hgen GDBLexer.tokens _ eq_refl E).
Qed.

End Streams.

(** X2 at the TOML sample of the scenario. *)
Lemma custom_lexers_no_empty_token_witness :
  Forall (fun tk => snd tk <> [])
    [ (Tok.Name, str "key"); (Tok.Text, str " ");
      (Tok.Operator, str "="); (Tok.Text, str " ");
      (Tok.String, [dquote] ++ str "value" ++ [dquote]);
      (Tok.Text, [10]) ].
Proof.
  apply (custom_lexers_no_empty_token ascii_db Sample.registry_tokens
           toml_sample NewTOMLLexer).
  - left. reflexivity.
  - vm_compute. reflexivity.
Defined.

(** ** The states and token types of the two lexers *)

Lemma gdb_stack_cases (stack : list string) :
  gdb_stack stack = true ->
  stack = ["root"%string] \/
  exists below, stack = "struct"%string :: below /\ below <> [] /\
                gdb_stack below = true.
Proof.
  destruct stack as [|st [|st' below]]; simpl; intros H; [discriminate| |].
  - left. apply String.eqb_eq in H. now subst.
  - right. apply andb_true_iff in H. destruct H as [Hst Hb].
    apply String.eqb_eq in Hst. subst st.
    exists (st' :: below). split; [reflexivity|]. split; [discriminate|].
    exact Hb.
Qed.

Lemma gdb_rules_of_stack (stack : list string) :
  gdb_stack stack = true ->
  (top stack = "root"%string /\
   state_rules GDBLexer.tokens (top stack) = GDBLexer.root) \/
  (top stack = "struct"%string /\
   state_rules GDBLexer.tokens (top stack) = GDBLexer.struct).
Proof.
  intros H. destruct (gdb_stack_cases stack H) as [-> | (below & -> & _ & _)].
  - left. split; reflexivity.
  - right. split; reflexivity.
Qed.

(** Taking a rule of the current state keeps the stack of [GDBLexer] in
    shape. *)
Lemma gdb_next_stack (stack : list string) (rl : rule) :
  gdb_stack stack = true ->
  In rl (state_rules GDBLexer.tokens (top stack)) ->
  gdb_transition_ok (top stack) (r_next rl) = true /\
  gdb_stack (next_stack (r_next rl) stack) = true.
Proof.
  intros Hinv Hin.
  assert (Hok : gdb_transition_ok (top stack) (r_next rl) = true).
  { destruct (gdb_rules_of_stack stack Hinv) as [[Ht Hrs] | [Ht Hrs]];
      rewrite Hrs in Hin; rewrite Ht.
    - assert (Hall : forallb (fun rl => gdb_transition_ok "root" (r_next rl))
                       GDBLexer.root = true) by reflexivity.
      rewrite forallb_forall in Hall. now apply Hall.
    - assert (Hall : forallb (fun rl => gdb_transition_ok "struct" (r_next rl))
                       GDBLexer.struct = true) by reflexivity.
      rewrite forallb_forall in Hall. now apply Hall. }
  split; [exact Hok|].
  destruct (gdb_stack_cases stack Hinv) as [-> | (below & -> & Hne & Hb)];
    simpl in Hok |- *.
  - destruct (r_next rl) as [| new | |]; simpl in *; try discriminate;
      try reflexivity.
    apply String.eqb_eq in Hok. now subst new.
  - destruct (r_next rl) as [| new | |]; simpl in *; try discriminate.
    + destruct below; [congruence | now rewrite Hb].
    + destruct below; [congruence | now rewrite Hb].
    + destruct below; [congruence | exact Hb].
Qed.

(** X3. The state stack of [GDBLexer] is always [root] under some number of
    [struct]: every rule of the current state leaves it so, and ['#pop'] is
    taken only in [struct], with at least two states on the stack, so
    [root] is never popped. *)
Theorem gdb_stack_invariant (stack : list string) (rl : rule) :
  gdb_stack stack = true ->
  In rl (state_rules GDBLexer.tokens (top stack)) ->
  gdb_stack (next_stack (r_next rl) stack) = true /\
  (r_next rl = Pop ->
   top stack = "struct"%string /\ (2 <= List.length stack)%nat /\
   next_stack Pop stack = tl stack).
Proof.
  intros Hinv Hin.
  destruct (gdb_next_stack stack rl Hinv Hin) as [Hok Hnext].
  split; [exact Hnext|].
  intros Hpop. rewrite Hpop in Hok. simpl in Hok.
  apply String.eqb_eq in Hok.
  destruct (gdb_stack_cases stack Hinv) as [-> | (below & -> & Hne & _)].
  - discriminate.
  - destruct below as [|st below]; [congruence|].
    split; [reflexivity|]. split; [simpl; lia | reflexivity].
Qed.

(** X3 on a stack of two: the rule of line 89 pops [struct] and leaves
    [root]. *)
Lemma gdb_stack_invariant_witness :
  gdb_stack (next_stack Pop ["struct"; "root"]%string) = true /\
  (Pop = Pop ->
   top ["struct"; "root"]%string = "struct"%string /\
   (2 <= List.length ["struct"; "root"]%string)%nat /\
   next_stack Pop ["struct"; "root"]%string = tl ["struct"; "root"]%string).
Proof.
  apply (gdb_stack_invariant ["struct"; "root"]%string
           (Rule (RCat [RStar true RSpace; RStr "}"; ROpt (RStr ",")])
                 (Emit Tok.Text) Pop)).
  - reflexivity.
  - simpl. right. right. left. reflexivity.
Defined.

Section TokenTypes.
Variable db : unicode_db.

(** A state with a catch-all rule leaves only the newline unmatched. *)
Lemma first_match_any (rs : list rule) (prev : option N) (x : N) (t : text) :
  existsb (fun rl => is_any (r_pattern rl)) rs = true ->
  first_match db rs prev (x :: t) = None ->
  x = 10.
Proof.
  induction rs as [|rl rs IH]; simpl; [discriminate|].
  intros Hex H.
  destruct (re_match db (r_pattern rl) prev (x :: t)) as [s1|] eqn:E;
    [discriminate|].
  apply orb_true_iff in Hex. destruct Hex as [Hany | Hex]; [|now apply IH].
  destruct (r_pattern rl); try discriminate.
  unfold re_match in E. simpl in E. unfold one_char in E. simpl in E.
  destruct (x =? 10) eqn:Ex; [now apply N.eqb_eq | discriminate].
Qed.

Lemma token_type_eqb_neq (a b : token_type) :
  token_type_eqb a b = false -> a <> b.
Proof.
  unfold token_type_eqb. destruct (list_eq_dec string_dec a b);
    [discriminate | auto].
Qed.

(** A greedy repetition always has a match to offer: at worst the empty
    one. *)
Lemma star_matches (r : regex) (s : mstate) :
  rmatch db (RStar true r) s Some <> None.
Proof.
  simpl. destruct (List.length (m_rest s)) as [|n]; [discriminate|].
  unfold or_else.
  match goal with |- match ?a with _ => _ end <> _ => destruct a end;
    discriminate.
Qed.

(** The rule of line 31 takes every newline, so [TOMLLexer] leaves no
    newline to the engine. *)
Lemma toml_newline_matched (prev : option N) (t : text) :
  first_match db TOMLLexer.root prev (10 :: t) <> None.
Proof.
  unfold TOMLLexer.root.
  match goal with
  | |- first_match db (?rl :: ?rs) _ _ <> _ =>
    change (first_match db (rl :: rs) prev (10 :: t))
      with (match re_match db (RPlus RSpace) prev (10 :: t) with
            | Some s1 => Some (rl, s1)
            | None => first_match db rs prev (10 :: t)
            end)
  end.
  destruct (re_match db (RPlus RSpace) prev (10 :: t)) as [s1|] eqn:E;
    [discriminate|].
  exfalso. unfold re_match, RPlus in E.
  change (rmatch db (RSeq RSpace (RStar true RSpace))
            (MState prev (10 :: t) []) Some)
    with (rmatch db (RStar true RSpace) (MState (Some 10) t []) Some) in E.
  exact (star_matches _ _ E).
Qed.

(** X4. The token types of the two lexers.  A token of [TOMLLexer] has a
    type that one of its rules names, or [Error] where no rule matches; the
    engine's own newline token never shows, the rule of line 31 taking
    every newline.  A token of [GDBLexer] has a type that one of its rules
    names, or is the one-character [Whitespace] newline that the engine
    yields where no rule of [struct] matches at a line end; it is never
    [Error], because the catch-all rules of lines 84 and 92 take every
    other character. *)
Theorem custom_lexers_token_types
    (registry_tokens : lexer_class -> text -> result (list token))
    (code : text) (toks : list token) :
  (get_tokens db registry_tokens NewTOMLLexer code = Ok toks ->
   Forall (fun tk => In (fst tk)
                        (Tok.Error :: def_types TOMLLexer.tokens)) toks) /\
  (get_tokens db registry_tokens NewGDBLexer code = Ok toks ->
   Forall (fun tk => (In (fst tk) (def_types GDBLexer.tokens) \/
                      tk = (Tok.Whitespace, [10])) /\
                     fst tk <> Tok.Error) toks).
Proof.
  split; simpl; unfold regex_tokens; intros H.
  - destruct (get_tokens_unprocessed db TOMLLexer.tokens (preprocess code))
      as [toks'|] eqn:E; [|discriminate].
    inversion H; subst toks'. unfold get_tokens_unprocessed in E.
    apply (lex_loop_forall db TOMLLexer.tokens _
             (fun st => top st = "root"%string))
      with (fuel := S (List.length (preprocess code)))
           (stack := ["root"%string]) (prev := None)
           (rest := preprocess code); try reflexivity; try exact E.
    + intros stack prev rest rl s1 Hinv Hfm.
      apply first_match_in in Hfm. destruct Hfm as [Hin _].
      split.
      * eapply Forall_impl; [|apply run_action_types].
        intros tk Htk. right.
        exact (rule_types_in_def _ _ _ _ Hin Htk).
      * rewrite Hinv in Hin.
        assert (Hall : forallb (fun rl => match r_next rl with
                                          | Stay => true
                                          | _ => false
                                          end) TOMLLexer.root = true)
          by reflexivity.
        rewrite forallb_forall in Hall. specialize (Hall rl Hin).
        destruct (r_next rl); try discriminate. exact Hinv.
    + intros stack prev x t Hinv Hnone. rewrite Hinv in Hnone.
      destruct (x =? 10) eqn:Ex.
      * apply N.eqb_eq in Ex. subst x.
        exfalso. exact (toml_newline_matched prev t Hnone).
      * left. reflexivity.
  - destruct (get_tokens_unprocessed db GDBLexer.tokens (preprocess code))
      as [toks'|] eqn:E; [|discriminate].
    inversion H; subst toks'. unfold get_tokens_unprocessed in E.
    assert (Hnoerr : forall t, In t (def_types GDBLexer.tokens) ->
                               t <> Tok.Error).
    { assert (Hall : forallb (fun t => negb (token_type_eqb t Tok.Error))
                       (def_types GDBLexer.tokens) = true) by reflexivity.
      rewrite forallb_forall in Hall. intros t Ht.
      apply token_type_eqb_neq, negb_true_iff, Hall, Ht. }
    apply (lex_loop_forall db GDBLexer.tokens _
             (fun st => gdb_stack st = true))
      with (fuel := S (List.length (preprocess code)))
           (stack := ["root"%string]) (prev := None)
           (rest := preprocess code);
      try reflexivity; try exact E.
    + intros stack prev rest rl s1 Hinv Hfm.
      apply first_match_in in Hfm. destruct Hfm as [Hin _].
      split; [|exact (proj2 (gdb_next_stack stack rl Hinv Hin))].
      eapply Forall_impl; [|apply run_action_types].
      intros tk Htk.
      pose proof (rule_types_in_def _ _ _ _ Hin Htk) as Hdef.
      split; [left; exact Hdef | exact (Hnoerr _ Hdef)].
    + intros stack prev x t Hinv Hnone.
      assert (Hx : x = 10).
      { apply (first_match_any _ prev x t) in Hnone; [exact Hnone|].
        destruct (gdb_rules_of_stack stack Hinv) as [[_ ->] | [_ ->]];
          reflexivity. }
      subst x. simpl. split; [right; reflexivity | discriminate].
Qed.

End TokenTypes.

(** X4 at two short texts: [a = 1] for [TOMLLexer]; for [GDBLexer] a
    struct that opens at the end of a line, where the newline is the
    engine's own token and the lexer is back in [root] after it. *)
Lemma custom_lexers_token_types_witness :
  Forall (fun tk => In (fst tk) (Tok.Error :: def_types TOMLLexer.tokens))
    [ (Tok.Name, str "a"); (Tok.Text, str " "); (Tok.Operator, str "=");
      (Tok.Text, str " "); (Tok.Number_Integer, str "1");
      (Tok.Text, [10]) ] /\
  Forall (fun tk => (In (fst tk) (def_types GDBLexer.tokens) \/
                     tk = (Tok.Whitespace, [10])) /\
                    fst tk <> Tok.Error)
    [ (Tok.Name_Variable, str "$1"); (Tok.Text, str " = {");
      (Tok.Whitespace, [10]); (Tok.Text, str "x"); (Tok.Text, [10]) ].
Proof.
  split.
  - apply (proj1 (custom_lexers_token_types ascii_db Sample.registry_tokens
                    (str "a = 1") _)).
    vm_compute. reflexivity.
  - apply (proj2 (custom_lexers_token_types ascii_db Sample.registry_tokens
                    (str "$1 = {" ++ [10] ++ str "x") _)).
    vm_compute. reflexivity.
Defined.

(** ** What a turn of the loop can come to *)

Section Outcomes.
Variable db : unicode_db.
Variable find_lexer_class : text -> option lexer_class.
Variable registry_tokens : lexer_class -> text -> result (list token).
Variable formatter : list token -> result bytes.
Variable send : payload -> result unit.

(** X8. The replies of a worker over two batches of messages: if the loop
    is still receiving after the first batch, the second is served after
    it; if the thread died or stalled in the first, the second gets no
    reply at all.  There is never more than one reply per message, and one
    for each exactly when the loop is still receiving. *)
Theorem run_app (a b : list (list bytes)) :
  run db find_lexer_class registry_tokens formatter send (a ++ b)
  = match snd (run db find_lexer_class registry_tokens formatter send a) with
    | Receiving =>
      (fst (run db find_lexer_class registry_tokens formatter send a)
       ++ fst (run db find_lexer_class registry_tokens formatter send b),
       snd (run db find_lexer_class registry_tokens formatter send b))
    | _ => run db find_lexer_class registry_tokens formatter send a
    end /\
  (List.length (fst (run db find_lexer_class registry_tokens formatter send a))
   <= List.length a)%nat /\
  (snd (run db find_lexer_class registry_tokens formatter send a) = Receiving
   <-> List.length
         (fst (run db find_lexer_class registry_tokens formatter send a))
       = List.length a).
Proof.
  induction a as [|m a (IHapp & IHle & IHiff)].
  - simpl. split.
    + now destruct (run db find_lexer_class registry_tokens formatter send b).
    + split; [lia | tauto].
  - simpl.
    destruct (serve db find_lexer_class registry_tokens formatter send m)
      as [rv|e|]; simpl.
    + rewrite IHapp.
      destruct (run db find_lexer_class registry_tokens formatter send a)
        as [out e] eqn:Ea. simpl in *.
      split; [|split; [lia|]].
      * destruct e; try reflexivity;
          now destruct (run db find_lexer_class registry_tokens formatter
                          send b).
      * rewrite IHiff. split; lia.
    + split; [reflexivity|]. split; [lia|]. split; [discriminate | lia].
    + split; [reflexivity|]. split; [lia|]. split; [discriminate | lia].
Qed.

End Outcomes.

(** X6. When the registry has no lexer under [text], the fallback of line
    147 raises [ClassNotFound] inside the handler; it is a [ValueError], so
    line 150 catches it, and for every unknown language and source text
    [rv] is the text that names the alias [text].  On a socket that takes
    [bytes] only, line 153 then raises: no reply is sent and the thread
    ends, with every later request unserved.  On a socket that takes a
    [str], the request gets that text as its reply and the loop goes on. *)
Theorem missing_text_lexer_reply (db : unicode_db)
    (find_lexer_class : text -> option lexer_class)
    (registry_tokens : lexer_class -> text -> result (list token))
    (formatter : list token -> result bytes)
    (f_lang f_code : bytes) (lang code : text) (rest : list (list bytes)) :
  find_lexer_class (str "text") = None ->
  unknown_language find_lexer_class lang ->
  utf8_decode f_lang = Ok lang ->
  utf8_decode f_code = Ok code ->
  let rv := PText (str "Pygments Error: no lexer for alias 'text' found") in
  resolve find_lexer_class lang = Raise (class_not_found (str "text")) /\
  render db find_lexer_class registry_tokens formatter lang code = Ok rv /\
  run db find_lexer_class registry_tokens formatter Sample.send_bytes_only
    ([f_lang; f_code] :: rest)
  = ([], Died (Exn TypeError (str "str objects not allowed"))) /\
  run db find_lexer_class registry_tokens formatter Sample.send_any
    ([f_lang; f_code] :: rest)
  = (rv :: fst (run db find_lexer_class registry_tokens formatter
                  Sample.send_any rest),
     snd (run db find_lexer_class registry_tokens formatter
            Sample.send_any rest)).
Proof.
  intros Htext (Hg & Ht & Hnone) Hl Hc rv.
  assert (Hres : resolve find_lexer_class lang
                 = Raise (class_not_found (str "text"))).
  { rewrite (resolve_other find_lexer_class lang Hg Ht), Hnone.
    unfold get_lexer_by_name. now rewrite Htext. }
  assert (Hr : render db find_lexer_class registry_tokens formatter lang code
               = Ok rv).
  { unfold render. rewrite Hres. reflexivity. }
  split; [exact Hres|]. split; [exact Hr|]. split.
  - apply run_cons_raise.
    now rewrite (serve_sent db find_lexer_class registry_tokens formatter
                   Sample.send_bytes_only _ _ _ _ _ Hl Hc Hr).
  - apply run_cons_ok.
    now rewrite (serve_sent db find_lexer_class registry_tokens formatter
                   Sample.send_any _ _ _ _ _ Hl Hc Hr).
Qed.

(** X6 with an empty registry: the request for [python] ends the worker on
    the socket that takes [bytes] only, and the TOML request behind it is
    not served. *)
Lemma missing_text_lexer_reply_witness :
  render ascii_db (fun _ => None) Sample.registry_tokens Sample.formatter
    (str "python") (str "x = 1")
  = Ok (PText (str "Pygments Error: no lexer for alias 'text' found")) /\
  run ascii_db (fun _ => None) Sample.registry_tokens Sample.formatter
    Sample.send_bytes_only [request "python" "x = 1"; request "toml" "a = 1"]
  = ([], Died (Exn TypeError (str "str objects not allowed"))).
Proof.
  destruct (missing_text_lexer_reply ascii_db (fun _ => None)
              Sample.registry_tokens Sample.formatter
              (bytes_lit "python") (bytes_lit "x = 1")
              (str "python") (str "x = 1") [request "toml" "a = 1"])
    as (_ & Hr & Hdied & _).
  - reflexivity.
  - split; [discriminate | split; [discriminate | reflexivity]].
  - reflexivity.
  - reflexivity.
  - split; [exact Hr | exact Hdied].
Defined.

(** ** Start-up with no workers *)

(** X9. With a size below zero the loop of line 110 runs over an empty
    range or, for [-1], over none at all: no worker is built or started,
    and the relay is entered with nothing behind it. *)
Theorem server_without_workers (size : Z) :
  (size <= -1)%Z ->
  started (ServerTask.run size) = [] /\
  ServerTask.run size
  = [Bind "frontend" "tcp://127.0.0.1:5555";
     Bind "backend" "inproc://backend"; Proxy].
Proof.
  intros Hsize.
  assert (Hrange : range (size + 1) = []).
  { unfold range. replace (Z.to_nat (size + 1)) with 0%nat by lia.
    reflexivity. }
  unfold ServerTask.run. rewrite Hrange. split; reflexivity.
Qed.

(** X9 at size [-3]. *)
Lemma server_without_workers_witness :
  started (ServerTask.run (-3)) = [] /\
  ServerTask.run (-3)
  = [Bind "frontend" "tcp://127.0.0.1:5555";
     Bind "backend" "inproc://backend"; Proxy].
Proof. apply (server_without_workers (-3)). lia. Defined.

(** ** Requests in UTF-8 *)

Ltac decide_tests :=
  repeat match goal with
  | |- context [?x <? ?y] =>
    first [ replace (x <? y) with true by (symmetry; apply N.ltb_lt; lia)
          | replace (x <? y) with false by (symmetry; apply N.ltb_ge; lia) ]
  | |- context [?x <=? ?y] =>
    first [ replace (x <=? y) with true by (symmetry; apply N.leb_le; lia)
          | replace (x <=? y) with false by (symmetry; apply N.leb_gt; lia) ]
  | |- context [?x =? ?y] =>
    first [ replace (x =? y) with true by (symmetry; apply N.eqb_eq; lia)
          | replace (x =? y) with false by (symmetry; apply N.eqb_neq; lia) ]
  end.

Lemma utf8_decode_encode_cp (c : N) (bs : bytes) :
  is_scalar c = true ->
  utf8_decode (utf8_encode_cp c ++ bs) = (t <- utf8_decode bs ;; Ok (c :: t)).
Proof.
  intros Hc.
  assert (Hsc : c < 0xD800 \/ (0xE000 <= c /\ c <= 0x10FFFF)).
  { unfold is_scalar in Hc. apply orb_true_iff in Hc.
    destruct Hc as [Hc | Hc]; [left | right]; to_props; lia. }
  clear Hc.
  pose proof (N.Div0.div_mod c 64) as E0.
  pose proof (N.mod_upper_bound c 64 ltac:(lia)) as B0.
  pose proof (N.Div0.div_mod (c / 64) 64) as E1.
  pose proof (N.mod_upper_bound (c / 64) 64 ltac:(lia)) as B1.
  pose proof (N.Div0.div_mod (c / 64 / 64) 64) as E2.
  pose proof (N.mod_upper_bound (c / 64 / 64) 64 ltac:(lia)) as B2.
  unfold utf8_encode_cp.
  replace (c / 4096) with (c / 64 / 64) by (rewrite N.Div0.div_div; reflexivity).
  replace (c / 262144) with (c / 64 / 64 / 64)
    by (rewrite !N.Div0.div_div; reflexivity).
  generalize dependent (c / 64 / 64 / 64). intros q3.
  generalize dependent ((c / 64 / 64) mod 64). intros r2.
  generalize dependent (c / 64 / 64). intros q2.
  generalize dependent ((c / 64) mod 64). intros r1.
  generalize dependent (c / 64). intros q1.
  generalize dependent (c mod 64). intros r0.
  intros B0 E0 B1 E1 B2 E2.
  destruct (c <? 128) eqn:T1; to_props.
  { cbn [app utf8_decode]. rewrite to_N_byte_of_N by lia. decide_tests.
    reflexivity. }
  destruct (c <? 2048) eqn:T2; to_props.
  { cbn [app utf8_decode]. rewrite !to_N_byte_of_N by lia.
    unfold in_range, is_cont. decide_tests. cbn [andb].
    replace ((192 + q1 - 192) * 64 + (128 + r0 - 128)) with c by lia.
    reflexivity. }
  destruct (c <? 65536) eqn:T3; to_props.
  { cbn [app utf8_decode]. rewrite !to_N_byte_of_N by lia.
    unfold in_range, is_cont. decide_tests.
    destruct (N.eqb_spec (224 + q2) 224); destruct (N.eqb_spec (224 + q2) 237);
      decide_tests; cbn [andb];
      (replace ((224 + q2 - 224) * 4096 + (128 + r1 - 128) * 64
                + (128 + r0 - 128)) with c by lia);
      reflexivity. }
  cbn [app utf8_decode]. rewrite !to_N_byte_of_N by lia.
  unfold in_range, is_cont. decide_tests.
  destruct (N.eqb_spec (240 + q3) 240); destruct (N.eqb_spec (240 + q3) 244);
    decide_tests; cbn [andb];
    (replace ((240 + q3 - 240) * 262144 + (128 + r2 - 128) * 4096
              + (128 + r1 - 128) * 64 + (128 + r0 - 128)) with c by lia);
    reflexivity.
Qed.

Lemma utf8_decode_encode (t : text) (b : bytes) :
  utf8_encode t = Ok b -> utf8_decode b = Ok t.
Proof.
  revert b. induction t as [|c t IH]; intros b H; simpl in H.
  - inversion H. reflexivity.
  - destruct (is_scalar c) eqn:Hc; [|discriminate].
    destruct (utf8_encode t) as [b'| |]; simpl in H; try discriminate.
    inversion H; subst b.
    rewrite (utf8_decode_encode_cp c b' Hc), (IH b' eq_refl). reflexivity.
Qed.

(** X10. The frames of a request are read as UTF-8: when a client sends the
    UTF-8 encodings of a language name and a source text, the loop renders
    exactly that pair, and what the turn comes to is what rendering and
    sending it come to. *)
Theorem utf8_request_rendered (db : unicode_db)
    (find_lexer_class : text -> option lexer_class)
    (registry_tokens : lexer_class -> text -> result (list token))
    (formatter : list token -> result bytes)
    (send : payload -> result unit)
    (lang code : text) (f_lang f_code : bytes) :
  utf8_encode lang = Ok f_lang ->
  utf8_encode code = Ok f_code ->
  utf8_decode f_lang = Ok lang /\
  utf8_decode f_code = Ok code /\
  serve db find_lexer_class registry_tokens formatter send [f_lang; f_code]
  = (rv <- render db find_lexer_class registry_tokens formatter lang code ;;
     _ <- send rv ;;
     Ok rv).
Proof.
  intros Hl Hc.
  apply utf8_decode_encode in Hl. apply utf8_decode_encode in Hc.
  split; [exact Hl|]. split; [exact Hc|].
  unfold serve. rewrite Hl. cbn [bind]. rewrite Hc. reflexivity.
Qed.

(** X10 for [toml] and a key with an accent, three bytes of which are one
    two-byte character. *)
Lemma utf8_request_rendered_witness :
  utf8_decode (bytes_lit "toml") = Ok (str "toml") /\
  utf8_decode [xc3; xa9; x20; x3d; x20; x31] = Ok [233; 32; 61; 32; 49] /\
  Sample.serve Sample.send_any
    [bytes_lit "toml"; [xc3; xa9; x20; x3d; x20; x31]]
  = (rv <- Sample.render (str "toml") [233; 32; 61; 32; 49] ;;
     _ <- Sample.send_any rv ;;
     Ok rv).
Proof.
  apply (utf8_request_rendered ascii_db Sample.find_lexer_class
           Sample.registry_tokens Sample.formatter Sample.send_any
           (str "toml") [233; 32; 61; 32; 49]);
    reflexivity.
Defined.

Lemma byte_of_to_N (x : byte) : byte_of_N (Byte.to_N x) = x.
Proof. unfold byte_of_N. now rewrite Byte.of_to_N. Qed.

Lemma encode_cp_1 (a : N) : a < 128 -> utf8_encode_cp a = [byte_of_N a].
Proof.
  intros H. unfold utf8_encode_cp. decide_tests. reflexivity.
Qed.

Lemma encode_cp_2 (a b : N) :
  194 <= a <= 223 -> 128 <= b <= 191 ->
  utf8_encode_cp ((a - 192) * 64 + (b - 128)) = [byte_of_N a; byte_of_N b].
Proof.
  intros Ha Hb. set (c := (a - 192) * 64 + (b - 128)).
  assert (Hq : c / 64 = a - 192)
    by (symmetry; apply (N.div_unique c 64 (a - 192) (b - 128)); lia).
  assert (Hr : c mod 64 = b - 128)
    by (symmetry; apply (N.mod_unique c 64 (a - 192) (b - 128)); lia).
  unfold utf8_encode_cp. decide_tests. rewrite Hq, Hr.
  repeat f_equal; lia.
Qed.

Lemma encode_cp_3 (a b d : N) :
  224 <= a <= 239 -> 128 <= b <= 191 -> 128 <= d <= 191 ->
  (a = 224 -> 160 <= b) ->
  utf8_encode_cp ((a - 224) * 4096 + (b - 128) * 64 + (d - 128))
  = [byte_of_N a; byte_of_N b; byte_of_N d].
Proof.
  intros Ha Hb Hd Hlo.
  set (c := (a - 224) * 4096 + (b - 128) * 64 + (d - 128)).
  assert (Hq : c / 4096 = a - 224)
    by (symmetry;
        apply (N.div_unique c 4096 (a - 224) ((b - 128) * 64 + (d - 128)));
        lia).
  assert (Hq1 : c / 64 = (a - 224) * 64 + (b - 128))
    by (symmetry;
        apply (N.div_unique c 64 ((a - 224) * 64 + (b - 128)) (d - 128));
        lia).
  assert (Hr1 : (c / 64) mod 64 = b - 128)
    by (rewrite Hq1; symmetry;
        apply (N.mod_unique _ 64 (a - 224) (b - 128)); lia).
  assert (Hr : c mod 64 = d - 128)
    by (symmetry;
        apply (N.mod_unique c 64 ((a - 224) * 64 + (b - 128)) (d - 128));
        lia).
  assert (Hc : 2048 <= c < 65536) by lia.
  unfold utf8_encode_cp. decide_tests. rewrite Hq, Hr1, Hr.
  repeat f_equal; lia.
Qed.

Lemma encode_cp_4 (a b d e : N) :
  240 <= a <= 244 -> 128 <= b <= 191 -> 128 <= d <= 191 -> 128 <= e <= 191 ->
  (a = 240 -> 144 <= b) ->
  utf8_encode_cp ((a - 240) * 262144 + (b - 128) * 4096 + (d - 128) * 64
                  + (e - 128))
  = [byte_of_N a; byte_of_N b; byte_of_N d; byte_of_N e].
Proof.
  intros Ha Hb Hd He Hlo.
  set (c := (a - 240) * 262144 + (b - 128) * 4096 + (d - 128) * 64
            + (e - 128)).
  assert (Hq : c / 262144 = a - 240)
    by (symmetry;
        apply (N.div_unique c 262144 (a - 240)
                 ((b - 128) * 4096 + (d - 128) * 64 + (e - 128))); lia).
  assert (Hq2 : c / 4096 = (a - 240) * 64 + (b - 128))
    by (symmetry;
        apply (N.div_unique c 4096 ((a - 240) * 64 + (b - 128))
                 ((d - 128) * 64 + (e - 128))); lia).
  assert (Hq1 : c / 64 = (a - 240) * 4096 + (b - 128) * 64 + (d - 128))
    by (symmetry;
        apply (N.div_unique c 64
                 ((a - 240) * 4096 + (b - 128) * 64 + (d - 128)) (e - 128));
        lia).
  assert (Hr2 : (c / 4096) mod 64 = b - 128)
    by (rewrite Hq2; symmetry;
        apply (N.mod_unique _ 64 (a - 240) (b - 128)); lia).
  assert (Hr1 : (c / 64) mod 64 = d - 128)
    by (rewrite Hq1; symmetry;
        apply (N.mod_unique _ 64 ((a - 240) * 64 + (b - 128)) (d - 128));
        lia).
  assert (Hr : c mod 64 = e - 128)
    by (symmetry;
        apply (N.mod_unique c 64
                 ((a - 240) * 4096 + (b - 128) * 64 + (d - 128)) (e - 128));
        lia).
  assert (Hc : 65536 <= c) by lia.
  unfold utf8_encode_cp. decide_tests. rewrite Hq, Hr2, Hr1, Hr.
  repeat f_equal; lia.
Qed.

Lemma utf8_encode_decode_bounded (n : nat) :
  forall (bs : bytes) (t : text),
    (List.length bs <= n)%nat -> utf8_decode bs = Ok t ->
    utf8_encode t = Ok bs.
Proof.
  induction n as [|n IH]; intros bs t Hlen H.
  - destruct bs; [|simpl in Hlen; lia].
    inversion H. reflexivity.
  - destruct bs as [|b0 r0]; [inversion H; reflexivity|].
    pose proof (utf8_decode_scalar _ _ H) as Hsc.
    simpl in H. simpl in Hlen.
    split_decode H; inversion H; subst; clear H;
      inversion Hsc as [|? ? Hc Hsc']; subst;
      cbn [utf8_encode]; rewrite Hc;
      match goal with
      | Hd : utf8_decode ?r = Ok ?t' |- _ =>
        rewrite (IH r t' ltac:(simpl in *; lia) Hd)
      end;
      cbn [bind]; to_props.
    + rewrite encode_cp_1 by lia. now rewrite byte_of_to_N.
    + rewrite encode_cp_2 by lia. now rewrite !byte_of_to_N.
    + rewrite encode_cp_3 by lia. now rewrite !byte_of_to_N.
    + rewrite encode_cp_3 by lia. now rewrite !byte_of_to_N.
    + rewrite encode_cp_3 by lia. now rewrite !byte_of_to_N.
    + rewrite encode_cp_3 by lia. now rewrite !byte_of_to_N.
    + rewrite encode_cp_4 by lia. now rewrite !byte_of_to_N.
    + rewrite encode_cp_4 by lia. now rewrite !byte_of_to_N.
    + rewrite encode_cp_4 by lia. now rewrite !byte_of_to_N.
    + rewrite encode_cp_4 by lia. now rewrite !byte_of_to_N.
Qed.

(** What [bytes.decode] accepts is the encoding of what it returns. *)
Lemma utf8_encode_decode (bs : bytes) (t : text) :
  utf8_decode bs = Ok t -> utf8_encode t = Ok bs.
Proof. apply (utf8_encode_decode_bounded (List.length bs)). lia. Qed.

(** X11. A frame that decodes at lines 134-135 is the one shortest-form
    encoding of its text: two frames that decode to the same text are the
    same bytes.  So the tests of lines 140 and 142 are passed by the frames
    [gdb] and [toml] and by no other bytes. *)
Theorem language_frame_exact (f_lang f_other : bytes) (lang : text) :
  utf8_decode f_lang = Ok lang ->
  utf8_encode lang = Ok f_lang /\
  (utf8_decode f_other = Ok lang -> f_other = f_lang) /\
  (lang = str "gdb" -> f_lang = bytes_lit "gdb") /\
  (lang = str "toml" -> f_lang = bytes_lit "toml").
Proof.
  intros Hdec. pose proof (utf8_encode_decode _ _ Hdec) as Henc.
  split; [exact Henc|]. split; [|split].
  - intros Ho. apply utf8_encode_decode in Ho. congruence.
  - intros ->. vm_compute in Henc. now inversion Henc.
  - intros ->. vm_compute in Henc. now inversion Henc.
Qed.

(** X11 at the frame [gdb]. *)
Lemma language_frame_exact_witness :
  utf8_encode (str "gdb") = Ok (bytes_lit "gdb") /\
  (utf8_decode (bytes_lit "gdb") = Ok (str "gdb") ->
   bytes_lit "gdb" = bytes_lit "gdb") /\
  (str "gdb" = str "gdb" -> bytes_lit "gdb" = bytes_lit "gdb") /\
  (str "gdb" = str "toml" -> bytes_lit "gdb" = bytes_lit "toml").
Proof.
  apply (language_frame_exact (bytes_lit "gdb") (bytes_lit "gdb") (str "gdb")).
  reflexivity.
Defined.

(** ** Names and keywords of TOMLLexer *)

Section TomlNames.
Variable db : unicode_db.

Lemma rmatch_lit_none (p : text) :
  forall (A : Type) (s : mstate) (k : mstate -> option A),
    after_prefix p (m_rest s) = None -> rmatch db (RLit p) s k = None.
Proof.
  induction p as [|a p IH]; intros A s k H; simpl in *; [discriminate|].
  unfold one_char. destruct (m_rest s) as [|c t] eqn:E; [reflexivity|].
  destruct (c =? a); [|reflexivity].
  apply IH. exact H.
Qed.

Lemma rmatch_lit_some (p : text) :
  forall (A : Type) (s : mstate) (k : mstate -> option A) (tl : text),
    after_prefix p (m_rest s) = Some tl ->
    exists s1, m_rest s1 = tl /\ m_groups s1 = m_groups s /\
               rmatch db (RLit p) s k = k s1.
Proof.
  induction p as [|a p IH]; intros A s k tl H; simpl in *.
  - inversion H. now exists s.
  - unfold one_char. destruct (m_rest s) as [|c t] eqn:E; [discriminate|].
    destruct (c =? a); [|discriminate].
    destruct (IH A (advance c t s) k tl H) as (s1 & H1 & H2 & H3).
    exists s1. repeat split; assumption.
Qed.

(** The keyword rule does not match where no keyword stands before a line
    end. *)
Lemma keyword_rule_none (prev : option N) (t : text) :
  keyword_at t = false ->
  re_match db (RSeq (RGroup 1 (RAlt (RStr "true") (RStr "false"))) REol) prev t
  = None.
Proof.
  unfold keyword_at, re_match, RStr. intros H.
  apply orb_false_iff in H. destruct H as [Ht Hf].
  set (s0 := MState prev t []).
  set (K := fun s1 : mstate =>
              rmatch db REol
                (MState (m_prev s1) (m_rest s1)
                   ((1%nat, consumed s0 s1) :: m_groups s1)) Some).
  change (or_else (rmatch db (RLit (str "true")) s0 K)
                  (rmatch db (RLit (str "false")) s0 K) = None).
  assert (Hone : forall p,
             match after_prefix p t with
             | Some tl => at_eol tl
             | None => false
             end = false ->
             rmatch db (RLit p) s0 K = None).
  { intros p Hp. destruct (after_prefix p t) as [tl|] eqn:E.
    - destruct (rmatch_lit_some p _ s0 K tl E) as (s1 & H1 & _ & ->).
      unfold K. cbn [rmatch m_rest]. rewrite H1. unfold at_eol in Hp.
      destruct tl as [|c tl]; [discriminate|]. now rewrite Hp.
    - now apply rmatch_lit_none. }
  rewrite (Hone _ Ht). apply (Hone _ Hf).
Qed.

(** The class tests of the name rule. *)
Lemma name_start_test (x : N) :
  existsb (item_matches db x)
    [char_range "a" "z"; char_range "A" "Z"; CChar (chr "_")]%string
  = toml_name_start x.
Proof.
  unfold toml_name_start. cbn [existsb item_matches char_range].
  change (chr "a"%string) with 97. change (chr "z"%string) with 122.
  change (chr "A"%string) with 65. change (chr "Z"%string) with 90.
  change (chr "_"%string) with 95.
  now rewrite orb_false_r, orb_assoc.
Qed.

Lemma name_char_test (x : N) :
  existsb (item_matches db x)
    [char_range "a" "z"; char_range "A" "Z"; char_range "0" "9";
     CChar (chr "_"); CChar (chr "-")]%string
  = toml_name_char x.
Proof.
  unfold toml_name_char. cbn [existsb item_matches char_range].
  change (chr "a"%string) with 97. change (chr "z"%string) with 122.
  change (chr "A"%string) with 65. change (chr "Z"%string) with 90.
  change (chr "0"%string) with 48. change (chr "9"%string) with 57.
  change (chr "_"%string) with 95. change (chr "-"%string) with 45.
  now rewrite orb_false_r, !orb_assoc.
Qed.

(** A greedy repetition of one character class takes the whole run of
    characters of the class. *)
Lemma star_class_run (neg : bool) (items : list cset_item) (run : text) :
  forall (prev : option N) (tl : text) (g : list (nat * text)),
    Forall (fun x => xorb neg (existsb (item_matches db x) items) = true) run ->
    match tl with
    | [] => True
    | c :: _ => xorb neg (existsb (item_matches db c) items) = false
    end ->
    rmatch db (RStar true (RSet neg items)) (MState prev (run ++ tl) g) Some
    = Some (MState (last_char prev run) tl g).
Proof.
  induction run as [|x run IH]; intros prev tl g Hrun Htl.
  - cbn [app last_char rev]. cbn [rmatch m_rest].
    destruct tl as [|c tl]; [reflexivity|].
    cbn [List.length]. unfold one_char. cbn [m_rest]. rewrite Htl.
    reflexivity.
  - inversion Hrun as [|? ? Hx Hrun']; subst.
    specialize (IH (Some x) tl g Hrun' Htl).
    cbn [rmatch m_rest] in IH |- *.
    cbn [app List.length]. unfold one_char at 1. cbn [m_rest]. rewrite Hx.
    unfold advance. cbn [m_rest m_groups List.length].
    replace (List.length (run ++ tl) <? S (List.length (run ++ tl)))%nat
      with true by (symmetry; apply Nat.ltb_lt; lia).
    rewrite IH. unfold or_else. f_equal. f_equal.
    unfold last_char. simpl rev.
    destruct (rev run) as [|y r] eqn:E; reflexivity.
Qed.

Lemma rmatch_seq {A} (r1 r2 : regex) (s : mstate) (k : mstate -> option A) :
  rmatch db (RSeq r1 r2) s k = rmatch db r1 s (fun s1 => rmatch db r2 s1 k).
Proof. reflexivity. Qed.

Lemma rmatch_set {A} (neg : bool) (items : list cset_item) (s : mstate)
    (k : mstate -> option A) :
  rmatch db (RSet neg items) s k
  = one_char (fun x => xorb neg (existsb (item_matches db x) items)) s k.
Proof. reflexivity. Qed.

Lemma name_rule_match (prev : option N) (a : N) (run tl : text) :
  toml_name_start a = true ->
  forallb toml_name_char run = true ->
  name_ends tl = true ->
  re_match db TOMLLexer.name_re prev (a :: run ++ tl)
  = Some (MState (last_char prev (a :: run)) tl []).
Proof.
  intros Ha Hrun Htl. unfold re_match, TOMLLexer.name_re.
  rewrite rmatch_seq, rmatch_set. unfold one_char. cbn [m_rest xorb].
  rewrite name_start_test, Ha. unfold advance. cbn [m_groups].
  rewrite (star_class_run false _ run (Some a) tl []).
  - f_equal. f_equal. unfold last_char. simpl rev.
    destruct (rev run) as [|y r] eqn:E; reflexivity.
  - rewrite forallb_forall in Hrun. apply Forall_forall. intros x Hx.
    cbn [xorb]. rewrite name_char_test. now apply Hrun.
  - destruct tl as [|c tl]; [exact I|]. cbn [xorb].
    rewrite name_char_test. simpl in Htl. now apply negb_true_iff.
Qed.

Lemma name_start_not_space (a : N) :
  toml_name_start a = true -> is_space db a = false.
Proof.
  unfold toml_name_start, is_space, in_range. intros H.
  repeat (apply orb_true_iff in H; destruct H as [H | H]); to_props;
    decide_tests; reflexivity.
Qed.

Lemma name_start_ordinary (a : N) :
  toml_name_start a = true -> (a =? 35) = false /\ (a =? 34) = false.
Proof.
  unfold toml_name_start, in_range. intros H.
  repeat (apply orb_true_iff in H; destruct H as [H | H]); to_props;
    split; apply N.eqb_neq; lia.
Qed.

Lemma first_match_cons_none (rl : rule) (rs : list rule) (prev : option N)
    (t : text) :
  re_match db (r_pattern rl) prev t = None ->
  first_match db (rl :: rs) prev t = first_match db rs prev t.
Proof. intros H. cbn [first_match]. now rewrite H. Qed.

Lemma first_match_cons_some (rl : rule) (rs : list rule) (prev : option N)
    (t : text) (s1 : mstate) :
  re_match db (r_pattern rl) prev t = Some s1 ->
  first_match db (rl :: rs) prev t = Some (rl, s1).
Proof. intros H. cbn [first_match]. now rewrite H. Qed.

Lemma emit_value (w tl : text) :
  firstn (List.length (w ++ tl) - List.length tl) (w ++ tl) = w.
Proof.
  rewrite length_app.
  replace (List.length w + List.length tl - List.length tl)%nat
    with (List.length w) by lia.
  rewrite firstn_app, firstn_all, Nat.sub_diag. simpl. apply app_nil_r.
Qed.

(** One turn of the loop on a rule that yields its whole match and stays in
    the state. *)
Lemma lex_loop_emit (def : lexer_def) (fuel : nat) (stack : list string)
    (prev : option N) (w tl : text) (r : regex) (ty : token_type)
    (s1 : mstate) :
  first_match db (state_rules def (top stack)) prev (w ++ tl)
  = Some (Rule r (Emit ty) Stay, s1) ->
  m_rest s1 = tl ->
  lex_loop db (S fuel) def stack prev (w ++ tl)
  = option_map (cons (ty, w)) (lex_loop db fuel def stack (m_prev s1) tl).
Proof.
  intros Hfm Hrest. cbn [lex_loop]. rewrite Hfm.
  cbn [r_action r_next run_action next_stack]. rewrite Hrest, emit_value.
  destruct (lex_loop db fuel def stack (m_prev s1) tl); reflexivity.
Qed.

Lemma name_first_match (prev : option N) (a : N) (run tl : text) :
  toml_name_start a = true ->
  forallb toml_name_char run = true ->
  name_ends tl = true ->
  keyword_at (a :: run ++ tl) = false ->
  first_match db TOMLLexer.root prev (a :: run ++ tl)
  = Some (Rule TOMLLexer.name_re (Emit Tok.Name) Stay,
          MState (last_char prev (a :: run)) tl []).
Proof.
  intros Ha Hrun Htl Hkw. unfold TOMLLexer.root.
  destruct (name_start_ordinary a Ha) as [Hhash Hquote].
  rewrite first_match_cons_none.
  2:{ unfold re_match. cbn [r_pattern]. unfold RPlus, RSpace.
      rewrite rmatch_seq, rmatch_set. unfold one_char.
      cbn [m_rest xorb existsb item_matches].
      now rewrite (name_start_not_space a Ha). }
  rewrite first_match_cons_none.
  2:{ unfold re_match. cbn [r_pattern RCat]. rewrite rmatch_seq.
      unfold RStr. change (str "#") with [35]. cbn [RLit].
      rewrite rmatch_seq. cbn [rmatch]. unfold one_char at 1.
      cbn [m_rest]. now rewrite Hhash. }
  rewrite first_match_cons_none.
  2:{ unfold re_match. cbn [r_pattern]. unfold TOMLLexer.string_re.
      cbn [RCat]. rewrite rmatch_seq. cbn [rmatch]. unfold one_char at 1.
      cbn [m_rest]. unfold dquote. now rewrite Hquote. }
  rewrite first_match_cons_none.
  2:{ cbn [r_pattern]. now apply keyword_rule_none. }
  apply first_match_cons_some. cbn [r_pattern].
  now apply name_rule_match.
Qed.

Lemma keyword_first_match (prev : option N) (kw tl : text) :
  kw = str "true" \/ kw = str "false" ->
  at_eol tl = true ->
  exists s1,
    first_match db TOMLLexer.root prev (kw ++ tl)
    = Some (Rule (RSeq (RGroup 1 (RAlt (RStr "true") (RStr "false"))) REol)
                 (Emit Tok.Keyword_Constant) Stay, s1) /\
    m_rest s1 = tl /\ m_prev s1 = Some 101.
Proof.
  intros Hkw Heol.
  destruct tl as [|c tl].
  - destruct Hkw as [-> | ->]; eexists; split; try reflexivity;
      split; reflexivity.
  - simpl in Heol. apply N.eqb_eq in Heol. subst c.
    destruct Hkw as [-> | ->]; eexists; split; try reflexivity;
      split; reflexivity.
Qed.

(** X13. Names and keywords of [TOMLLexer] (lines 34-35): [true] and
    [false] are [Keyword.Constant] only where a line ends right after them;
    anywhere else a letter or underscore starts a [Name] that runs over all
    the letters, digits, [_] and [-] that follow, so [true] before a comma
    or a comment is a [Name]. *)
Theorem toml_identifier_token (fuel : nat) (prev : option N) :
  (forall kw tl,
      kw = str "true" \/ kw = str "false" ->
      at_eol tl = true ->
      lex_loop db (S fuel) TOMLLexer.tokens ["root"%string] prev (kw ++ tl)
      = option_map (cons (Tok.Keyword_Constant, kw))
          (lex_loop db fuel TOMLLexer.tokens ["root"%string] (Some 101) tl)) /\
  (forall a run tl,
      toml_name_start a = true ->
      forallb toml_name_char run = true ->
      name_ends tl = true ->
      keyword_at (a :: run ++ tl) = false ->
      lex_loop db (S fuel) TOMLLexer.tokens ["root"%string] prev
        (a :: run ++ tl)
      = option_map (cons (Tok.Name, a :: run))
          (lex_loop db fuel TOMLLexer.tokens ["root"%string]
             (last_char prev (a :: run)) tl)).
Proof.
  split.
  - intros kw tl Hkw Heol.
    destruct (keyword_first_match prev kw tl Hkw Heol) as (s1 & Hfm & Hr & Hp).
    rewrite <- Hp. now apply lex_loop_emit with (r := RSeq (RGroup 1 (RAlt (RStr "true") (RStr "false"))) REol).
  - intros a run tl Ha Hrun Htl Hkw.
    pose proof (name_first_match prev a run tl Ha Hrun Htl Hkw) as Hfm.
    change (a :: run ++ tl) with ((a :: run) ++ tl).
    now apply lex_loop_emit with (r := TOMLLexer.name_re)
                                 (s1 := MState (last_char prev (a :: run)) tl []).
Qed.


(** X12. [TOMLLexer] has no rule that can start at any of these ASCII
    characters, the apostrophe and the plus sign among them: wherever a
    token would start at one, the loop yields it alone as an [Error] token
    and goes on after it. *)
Theorem toml_unruled_chars (c : N) (fuel : nat) (prev : option N)
    (rest : text) :
  In c (str "!$%&'*+/<>?@\^`|~") ->
  first_match db TOMLLexer.root prev (c :: rest) = None /\
  lex_loop db (S fuel) TOMLLexer.tokens ["root"%string] prev (c :: rest)
  = option_map (cons (Tok.Error, [c]))
      (lex_loop db fuel TOMLLexer.tokens ["root"%string] (Some c) rest).
Proof.
  intros Hin. simpl in Hin.
  repeat (destruct Hin as [<- | Hin]; [split; reflexivity|]).
  destruct Hin.
Qed.

End TomlNames.

(** X13 on [true] before a line end and on [true] before a comma. *)
Lemma toml_identifier_token_witness :
  lex_loop ascii_db 3 TOMLLexer.tokens ["root"%string] None
    (str "true" ++ [10])
  = option_map (cons (Tok.Keyword_Constant, str "true"))
      (lex_loop ascii_db 2 TOMLLexer.tokens ["root"%string] (Some 101) [10]) /\
  lex_loop ascii_db 3 TOMLLexer.tokens ["root"%string] None
    (116 :: str "rue" ++ str ",")
  = option_map (cons (Tok.Name, 116 :: str "rue"))
      (lex_loop ascii_db 2 TOMLLexer.tokens ["root"%string]
         (last_char None (116 :: str "rue")) (str ",")).
Proof.
  destruct (toml_identifier_token ascii_db 2 None) as [Hkw Hname].
  split.
  - apply Hkw; [left; reflexivity | reflexivity].
  - apply Hname; reflexivity.
Defined.

(** X12 at an apostrophe before [a']. *)
Lemma toml_unruled_chars_witness :
  first_match ascii_db TOMLLexer.root None (39 :: str "a'") = None /\
  lex_loop ascii_db 5 TOMLLexer.tokens ["root"%string] None (39 :: str "a'")
  = option_map (cons (Tok.Error, [39]))
      (lex_loop ascii_db 4 TOMLLexer.tokens ["root"%string] (Some 39)
         (str "a'")).
Proof.
  apply (toml_unruled_chars ascii_db 39 4 None (str "a'")).
  simpl. tauto.
Defined.

(** ** The formatter keeps to scalar values *)

Lemma all_scalar_app (a b : text) :
  all_scalar a -> all_scalar b -> all_scalar (a ++ b).
Proof. intros Ha Hb. apply Forall_app. now split. Qed.

Lemma all_scalar_concat (l : list text) :
  Forall all_scalar l -> all_scalar (List.concat l).
Proof.
  induction 1 as [|t l Ht _ IH]; simpl; [constructor|].
  now apply all_scalar_app.
Qed.

Lemma all_scalar_parts (l : list text) :
  all_scalar (List.concat l) -> Forall all_scalar l.
Proof.
  induction l as [|t l IH]; simpl; intros H; [constructor|].
  apply Forall_app in H. destruct H as [Ht Hl].
  constructor; [exact Ht | now apply IH].
Qed.

Lemma all_scalar_str (s : string) : all_scalar (str s).
Proof.
  unfold str. induction s as [|a s IH]; simpl; [constructor|].
  constructor; [|exact IH].
  pose proof (N_ascii_bounded a) as Hb. unfold is_scalar.
  apply orb_true_iff. left. apply N.ltb_lt. lia.
Qed.

Lemma all_scalar_split_nl (t : text) :
  all_scalar t -> Forall all_scalar (HtmlFormatter.split_nl t).
Proof.
  induction 1 as [|c t Hc _ IH]; simpl; [repeat constructor|].
  destruct (HtmlFormatter.split_nl t) as [|p ps]; [repeat constructor; auto|].
  inversion IH as [|? ? Hp Hps]; subst.
  destruct (c =? 10).
  - constructor; [constructor | now constructor].
  - constructor; [now constructor | exact Hps].
Qed.

Section FormatScalar.
Variable css : token_type -> text.

Lemma span_open_scalar (ttype : token_type) :
  all_scalar (css ttype) ->
  all_scalar (HtmlFormatter.span_open css ttype).
Proof.
  unfold HtmlFormatter.span_open.
  intros H.
  destruct (css ttype) as [|c cls]; [constructor|].
  repeat apply all_scalar_app; try apply all_scalar_str; try exact H;
    repeat constructor.
Qed.

Lemma span_close_scalar (span : text) :
  all_scalar (HtmlFormatter.span_close span).
Proof.
  unfold HtmlFormatter.span_close. destruct span; [constructor|].
  apply all_scalar_str.
Qed.

Ltac scalar_pieces :=
  repeat first
    [ assumption
    | apply span_close_scalar
    | apply all_scalar_app
    | apply all_scalar_concat
    | apply Forall_app; split
    | apply Forall_cons
    | apply Forall_nil
    | reflexivity ].

Lemma full_line_scalar (cspan part : text) (st : HtmlFormatter.fstate) :
  all_scalar cspan -> all_scalar part -> fstate_scalar st ->
  fstate_scalar (HtmlFormatter.full_line cspan part st).
Proof.
  intros Hc Hp (Ho & Hs & Hl). unfold HtmlFormatter.full_line.
  destruct (HtmlFormatter.f_line st) as [|l0 line] eqn:E.
  - destruct part; try (inversion Hp; subst); repeat split; simpl;
      scalar_pieces.
  - inversion Hl; subst.
    destruct (negb (text_eqb (HtmlFormatter.f_lspan st) cspan)
              && negb (text_eqb part []));
      repeat split; simpl; scalar_pieces.
Qed.

Lemma last_piece_scalar (cspan part : text) (st : HtmlFormatter.fstate) :
  all_scalar cspan -> all_scalar part -> fstate_scalar st ->
  fstate_scalar (HtmlFormatter.last_piece cspan part st).
Proof.
  intros Hc Hp (Ho & Hs & Hl). unfold HtmlFormatter.last_piece.
  destruct (HtmlFormatter.f_line st) as [|l0 line] eqn:E; destruct part;
    try (inversion Hp; subst).
  - repeat split; try assumption. rewrite E. constructor.
  - repeat split; simpl; scalar_pieces.
  - repeat split; try assumption. now rewrite E.
  - inversion Hl; subst.
    destruct (negb (text_eqb (HtmlFormatter.f_lspan st) cspan));
      repeat split; simpl; scalar_pieces.
Qed.

Lemma pieces_scalar (cspan : text) (parts : list text) :
  all_scalar cspan -> Forall all_scalar parts ->
  forall st, fstate_scalar st ->
             fstate_scalar (HtmlFormatter.pieces cspan parts st).
Proof.
  intros Hc Hparts. induction Hparts as [|p parts Hp Hps IH]; intros st Hst;
    [exact Hst|].
  destruct parts as [|p' parts].
  - simpl. now apply last_piece_scalar.
  - change (fstate_scalar
              (HtmlFormatter.pieces cspan (p' :: parts)
                 (HtmlFormatter.full_line cspan p st))).
    apply IH. now apply full_line_scalar.
Qed.

Lemma format_unencoded_scalar (toks : list token) :
  Forall (fun tk => all_scalar (snd tk) /\ all_scalar (css (fst tk))) toks ->
  all_scalar (HtmlFormatter.format_unencoded css toks).
Proof.
  intros Htoks. unfold HtmlFormatter.format_unencoded.
  assert (Hfold : forall st, fstate_scalar st ->
            fstate_scalar (fold_left (HtmlFormatter.format_token css) toks st)).
  { induction Htoks as [|tk toks [Hv Hcss] _ IH]; intros st Hst;
      [exact Hst|].
    simpl. apply IH. unfold HtmlFormatter.format_token.
    apply pieces_scalar; [now apply span_open_scalar | | exact Hst].
    now apply all_scalar_split_nl, all_scalar_escape. }
  destruct (Hfold (HtmlFormatter.FState [] [] [])) as (Ho & Hs & Hl).
  { repeat split; constructor. }
  unfold HtmlFormatter.finish.
  destruct (HtmlFormatter.f_line _) as [|l0 line] eqn:E; [exact Ho|].
  inversion Hl; subst. scalar_pieces.
Qed.

End FormatScalar.

(** ** Requests for the two custom formats *)

Section CustomRequests.
Variable db : unicode_db.

(** The types of a stream of the engine: those the rules name, and the
    engine's own [Error] and [Whitespace]. *)
Lemma regex_token_types (def : lexer_def) (t : text) (toks : list token) :
  get_tokens_unprocessed db def t = Some toks ->
  Forall (fun tk => In (fst tk)
                       (Tok.Error :: Tok.Whitespace :: def_types def)) toks.
Proof.
  intros E. unfold get_tokens_unprocessed in E.
  apply (lex_loop_forall db def _ (fun _ => True))
    with (fuel := S (List.length t)) (stack := ["root"%string])
         (prev := None) (rest := t); try exact I; try exact E.
  - intros stack prev rest rl s1 _ Hfm. split; [|exact I].
    apply first_match_in in Hfm. destruct Hfm as [Hin _].
    eapply Forall_impl; [|apply run_action_types].
    intros tk Htk. right. right. exact (rule_types_in_def _ _ _ _ Hin Htk).
  - intros stack prev x t' _ _. destruct (x =? 10).
    + right. left. reflexivity.
    + left. reflexivity.
Qed.

(** X14. A request for [toml] or [gdb] never comes to the error reply or
    to an exception: whatever the decoded source text, the engine's loop
    reaches the end of the text, the formatter's output can be encoded, and
    [rv] is the bytes of the markup of a token stream that spells the
    prepared text.  The time the matching takes is not measured: some
    patterns, those of lines 33, 79 and 81 among them, can backtrack for
    very long on an unterminated input before they give up.  The style
    table only has to give encodable class names to the token types of the
    two lexers. *)
Theorem custom_requests_get_markup
    (find_lexer_class : text -> option lexer_class)
    (registry_tokens : lexer_class -> text -> result (list token))
    (css : token_type -> text)
    (f_code : bytes) (lang code : text) :
  Forall (fun ttype => all_scalar (css ttype)) pig_token_types ->
  utf8_decode f_code = Ok code ->
  lang = str "toml" \/ lang = str "gdb" ->
  exists lex toks out,
    resolve find_lexer_class lang = Ok lex /\
    get_tokens db registry_tokens lex code = Ok toks /\
    spelled toks = preprocess code /\
    utf8_encode (HtmlFormatter.format_unencoded css toks) = Ok out /\
    render db find_lexer_class registry_tokens (HtmlFormatter.format css)
      lang code = Ok (PBytes out).
Proof.
  intros Hcss Hdec Hlang.
  assert (Hcode : all_scalar (preprocess code)).
  { apply all_scalar_preprocess. exact (utf8_decode_scalar _ _ Hdec). }
  assert (Hgen : forall def lex,
             all_consuming def = true -> all_cover def = true ->
             incl (Tok.Error :: Tok.Whitespace :: def_types def)
                  pig_token_types ->
             resolve find_lexer_class lang = Ok lex ->
             (forall c, get_tokens db registry_tokens lex c
                        = regex_tokens db def c) ->
             exists lex toks out,
               resolve find_lexer_class lang = Ok lex /\
               get_tokens db registry_tokens lex code = Ok toks /\
               spelled toks = preprocess code /\
               utf8_encode (HtmlFormatter.format_unencoded css toks) = Ok out /\
               render db find_lexer_class registry_tokens
                 (HtmlFormatter.format css) lang code = Ok (PBytes out)).
  { intros def lex Hcons Hcov Hincl Hres Hget.
    destruct (get_tokens_unprocessed_returns db def (preprocess code) Hcons)
      as [toks E].
    pose proof (lex_loop_spelled db def Hcov _ _ _ _ _ E) as Hsp.
    assert (Htoks : Forall (fun tk => all_scalar (snd tk)
                                      /\ all_scalar (css (fst tk))) toks).
    { pose proof (regex_token_types def _ _ E) as Hty.
      assert (Hvals : Forall all_scalar (map snd toks)).
      { apply all_scalar_parts. unfold spelled in Hsp. now rewrite Hsp. }
      rewrite Forall_map in Hvals.
      rewrite Forall_forall in Hty, Hvals, Hcss |- *.
      intros tk Htk. split; [now apply Hvals|].
      apply Hcss, Hincl, Hty, Htk. }
    destruct (utf8_encode_scalar _ (format_unencoded_scalar css toks Htoks))
      as [out Hout].
    assert (Hget' : get_tokens db registry_tokens lex code = Ok toks).
    { rewrite Hget. unfold regex_tokens. now rewrite E. }
    exists lex, toks, out.
    split; [exact Hres|]. split; [exact Hget'|]. split; [exact Hsp|].
    split; [exact Hout|].
    apply render_success with (lex := lex); [exact Hres|].
    unfold highlight. rewrite Hget'. exact Hout. }
  destruct Hlang as [-> | ->].
  - apply (Hgen TOMLLexer.tokens NewTOMLLexer); try reflexivity.
    intros ty Hty. unfold pig_token_types.
    destruct Hty as [<- | [<- | Hty]];
      [now left | now right; left | right; right].
    apply in_or_app. now left.
  - apply (Hgen GDBLexer.tokens NewGDBLexer); try reflexivity.
    intros ty Hty. unfold pig_token_types.
    destruct Hty as [<- | [<- | Hty]];
      [now left | now right; left | right; right].
    apply in_or_app. now right.
Qed.

End CustomRequests.

(** X14 at the scenario's TOML text, with the standard style table. *)
Lemma custom_requests_get_markup_witness :
  exists lex toks out,
    resolve Sample.find_lexer_class (str "toml") = Ok lex /\
    get_tokens ascii_db Sample.registry_tokens lex toml_sample = Ok toks /\
    spelled toks = preprocess toml_sample /\
    utf8_encode
      (HtmlFormatter.format_unencoded HtmlFormatter.standard_css toks)
    = Ok out /\
    render ascii_db Sample.find_lexer_class Sample.registry_tokens
      (HtmlFormatter.format HtmlFormatter.standard_css)
      (str "toml") toml_sample = Ok (PBytes out).
Proof.
  apply (custom_requests_get_markup ascii_db Sample.find_lexer_class
           Sample.registry_tokens HtmlFormatter.standard_css
           (bytes_lit "key = " ++ [x22] ++ bytes_lit "value" ++ [x22])
           (str "toml") toml_sample).
  - repeat constructor.
  - reflexivity.
  - left. reflexivity.
Defined.
